(** * music21.timespans.core: the AVL tree of offsets

    A shallow embedding of [AVLNode] and [AVLTree] from
    [music21/timespans/core.py], followed by the properties of the
    balancing algorithm and of the ordered searches.

    - Offsets are modelled as integers ([Z]); the cached [height] and
      [balance] fields are integers as in the source.
    - A Python reference that is either [None] or an [AVLNode] object is a
      value of [noderef]; the payload is an opaque value of a type [P], or
      Python's [None].
    - The methods mutate nodes in place and return the root of the subtree
      they worked on.  Every node is referenced from one child slot only
      (or from [rootNode]), so a method is modelled by the function from
      the subtree it receives to the subtree it returns.
    - A call that raises is a [Raise]; attribute access on [None] raises
      [AttributeError]. *)

From Stdlib Require Import ZArith List Lia Bool String Ascii Sorted.
From Stdlib Require Import DecimalString.
Import ListNotations.
Open Scope Z_scope.

(** ** Exceptions and results *)

Inductive exn : Type :=
| TimespanException   (* the only [raise] statement of the module *)
| AttributeError      (* attribute access on [None] *)
| IndexError.         (* [subresult[0]] on an empty list *)

Inductive result (A : Type) : Type :=
| Ok (a : A)
| Raise (e : exn).

Arguments Ok {A} a.
Arguments Raise {A} e.

Definition bind {A B : Type} (c : result A) (k : A -> result B) : result B :=
  match c with
  | Ok a => k a
  | Raise e => Raise e
  end.

Notation "x <- c ;; k" := (bind c (fun x => k))
  (at level 61, c at next level, right associativity).

(** ** Nodes *)

Inductive noderef (P : Type) : Type :=
| PyNone
| AVLNode (balance height : Z) (offset : Z) (payload : option P)
          (leftChild rightChild : noderef P).

Arguments PyNone {P}.
Arguments AVLNode {P} balance height offset payload leftChild rightChild.

(** Truth value of a reference: [AVLNode] defines neither [__bool__] nor
    [__len__], so every node object is true and only [None] is false. *)
Definition truthy {P} (node : noderef P) : bool :=
  match node with
  | PyNone => false
  | AVLNode _ _ _ _ _ _ => true
  end.

(** [a or b] on references. *)
Definition py_or {P} (a b : noderef P) : noderef P :=
  if truthy a then a else b.

(** [str] of an integer, and of an integer-or-[None]. *)
Definition str_int (z : Z) : string := NilZero.string_of_int (Z.to_int z).

Definition str_opt_int (o : option Z) : string :=
  match o with
  | None => "None"
  | Some z => str_int z
  end.

Definition tab : string := String (ascii_of_nat 9) EmptyString.
Definition newline : string := String (ascii_of_nat 10) EmptyString.

Module AVLNode.

(** [AVLNode(offset)], with [payload=None]. *)
Definition __init__ {P} (offset : Z) (payload : option P) : noderef P :=
  AVLNode 0 0 offset payload PyNone PyNone.

Definition __repr__ {P} (self : noderef P) : result string :=
  match self with
  | PyNone => Raise AttributeError
  | AVLNode _ height offset _ leftChild rightChild =>
      let lcHeight :=
        match leftChild with
        | PyNone => None
        | AVLNode _ h _ _ _ _ => Some h
        end in
      let rcHeight :=
        match rightChild with
        | PyNone => None
        | AVLNode _ h _ _ _ _ => Some h
        end in
      Ok ("<Node: Start:" ++ str_int offset ++ " Height:" ++ str_int height
          ++ " L:" ++ str_opt_int lcHeight ++ " R:" ++ str_opt_int rcHeight
          ++ ">")%string
  end.

Fixpoint _getDebugPieces {P} (self : noderef P) : result (list string) :=
  match self with
  | PyNone => Raise AttributeError
  | AVLNode _ _ _ _ leftChild rightChild =>
      r0 <- __repr__ self ;;
      let result0 := [r0] in
      result1 <-
        (if truthy leftChild then
           subresult <- _getDebugPieces leftChild ;;
           match subresult with
           | [] => Raise IndexError
           | s0 :: rest =>
               Ok (result0 ++ [(tab ++ "L: " ++ s0)%string]
                     ++ map (fun x => (tab ++ x)%string) rest)
           end
         else Ok result0) ;;
      if truthy rightChild then
        subresult <- _getDebugPieces rightChild ;;
        match subresult with
        | [] => Raise IndexError
        | s0 :: rest =>
            Ok (result1 ++ [(tab ++ "R: " ++ s0)%string]
                  ++ map (fun x => (tab ++ x)%string) rest)
        end
      else Ok result1
  end.

Definition debug {P} (self : noderef P) : result string :=
  pieces <- _getDebugPieces self ;;
  Ok (String.concat newline pieces).

(** [self.update()]: the height of an absent child is [-1]; the heights
    read are the children's cached [height] fields. *)
Definition update {P} (self : noderef P) : noderef P :=
  match self with
  | PyNone => PyNone
  | AVLNode _ _ offset payload leftChild rightChild =>
      let leftHeight :=
        match leftChild with
        | PyNone => -1
        | AVLNode _ h _ _ _ _ => h
        end in
      let rightHeight :=
        match rightChild with
        | PyNone => -1
        | AVLNode _ h _ _ _ _ => h
        end in
      AVLNode (rightHeight - leftHeight)
              (Z.max leftHeight rightHeight + 1)
              offset payload leftChild rightChild
  end.

End AVLNode.

Module AVLTree.

Import AVLNode.

(** The tree object holds one field, [rootNode]; a tree is modelled by
    the reference stored there, and a method that assigns [rootNode]
    returns the new reference. *)

Definition __init__ {P} : noderef P := PyNone.

(** The generator of [__iter__], as the list of the nodes it yields. *)
Fixpoint __iter__ {P} (node : noderef P) : list (noderef P) :=
  match node with
  | PyNone => []
  | AVLNode _ _ _ _ leftChild rightChild =>
      (if truthy leftChild then __iter__ leftChild else [])
        ++ [node]
        ++ (if truthy rightChild then __iter__ rightChild else [])
  end.

(** [nextNode = node.leftChild; node.leftChild = nextNode.rightChild;
    node.update(); nextNode.rightChild = node; nextNode.update()]. *)
Definition _rotateLeftLeft {P} (node : noderef P) : result (noderef P) :=
  match node with
  | PyNone => Raise AttributeError
  | AVLNode b h k p nextNode r =>
      match nextNode with
      | PyNone => Raise AttributeError
      | AVLNode nb nh nk np nl nr =>
          let node1 := update (AVLNode b h k p nr r) in
          Ok (update (AVLNode nb nh nk np nl node1))
      end
  end.

(** [nextNode = node.rightChild; node.rightChild = nextNode.leftChild;
    node.update(); nextNode.leftChild = node; nextNode.update()]. *)
Definition _rotateRightRight {P} (node : noderef P) : result (noderef P) :=
  match node with
  | PyNone => Raise AttributeError
  | AVLNode b h k p l nextNode =>
      match nextNode with
      | PyNone => Raise AttributeError
      | AVLNode nb nh nk np nl nr =>
          let node1 := update (AVLNode b h k p l nl) in
          Ok (update (AVLNode nb nh nk np node1 nr))
      end
  end.

(** [node.leftChild = self._rotateRightRight(node.leftChild);
    node.update(); return self._rotateLeftLeft(node)]. *)
Definition _rotateLeftRight {P} (node : noderef P) : result (noderef P) :=
  match node with
  | PyNone => Raise AttributeError
  | AVLNode b h k p l r =>
      l1 <- _rotateRightRight l ;;
      _rotateLeftLeft (update (AVLNode b h k p l1 r))
  end.

(** [node.rightChild = self._rotateLeftLeft(node.rightChild);
    node.update(); return self._rotateRightRight(node)]. *)
Definition _rotateRightLeft {P} (node : noderef P) : result (noderef P) :=
  match node with
  | PyNone => Raise AttributeError
  | AVLNode b h k p l r =>
      r1 <- _rotateLeftLeft r ;;
      _rotateRightRight (update (AVLNode b h k p l r1))
  end.

(** The end of [_rebalance], after the rotations: the balance of the
    node is read again, and the node is returned unless it is still
    outside [-1, 1]. *)
Definition _rebalance_recheck {P} (node : noderef P) : result (noderef P) :=
  match node with
  | PyNone => Raise AttributeError
  | AVLNode balance _ _ _ _ _ =>
      if (balance <? -1) || (1 <? balance)
      then Raise TimespanException
      else Ok node
  end.

(** [_rebalance(node)]: the rotation is chosen from the cached balance of
    the node and of its heavier child. *)
Definition _rebalance {P} (node : noderef P) : result (noderef P) :=
  match node with
  | PyNone => Ok PyNone
  | AVLNode balance _ _ _ leftChild rightChild =>
      node1 <-
        (if 1 <? balance then
           match rightChild with
           | PyNone => Raise AttributeError
           | AVLNode rb _ _ _ _ _ =>
               if 0 <=? rb then _rotateRightRight node
               else _rotateRightLeft node
           end
         else if balance <? -1 then
           match leftChild with
           | PyNone => Raise AttributeError
           | AVLNode lb _ _ _ _ _ =>
               if lb <=? 0 then _rotateLeftLeft node
               else _rotateLeftRight node
           end
         else Ok node) ;;
      _rebalance_recheck node1
  end.

(** The inner [recurse] of [insertAtOffset].  When [offset] equals the
    offset of the node neither branch is taken and the node goes to
    [_rebalance] as it is. *)
Fixpoint insertAtOffset_recurse {P} (node : noderef P) (offset : Z)
  : result (noderef P) :=
  match node with
  | PyNone => Ok (AVLNode.__init__ offset None)
  | AVLNode b h k p l r =>
      if offset <? k then
        l1 <- insertAtOffset_recurse l offset ;;
        _rebalance (update (AVLNode b h k p l1 r))
      else if k <? offset then
        r1 <- insertAtOffset_recurse r offset ;;
        _rebalance (update (AVLNode b h k p l r1))
      else _rebalance node
  end.

(** [self.rootNode = recurse(self.rootNode, offset)]. *)
Definition insertAtOffset {P} (rootNode : noderef P) (offset : Z)
  : result (noderef P) :=
  insertAtOffset_recurse rootNode offset.

(** [if self.rootNode is not None: return self.rootNode.debug()], else
    [return '']. *)
Definition debug {P} (rootNode : noderef P) : result string :=
  match rootNode with
  | PyNone => Ok EmptyString
  | AVLNode _ _ _ _ _ _ => AVLNode.debug rootNode
  end.

Fixpoint getNodeByOffset_recurse {P} (offset : Z) (node : noderef P)
  : noderef P :=
  match node with
  | PyNone => PyNone
  | AVLNode _ _ k _ l r =>
      if k =? offset then node
      else if truthy l && (offset <? k) then getNodeByOffset_recurse offset l
      else if truthy r && (k <? offset) then getNodeByOffset_recurse offset r
      else PyNone
  end.

Definition getNodeByOffset {P} (rootNode : noderef P) (offset : Z)
  : noderef P :=
  getNodeByOffset_recurse offset rootNode.

Fixpoint _getNodeAfter_recurse {P} (node : noderef P) (offset : Z)
  : noderef P :=
  match node with
  | PyNone => PyNone
  | AVLNode _ _ k _ l r =>
      if (k <=? offset) && truthy r then _getNodeAfter_recurse r offset
      else if offset <? k then py_or (_getNodeAfter_recurse l offset) node
      else PyNone
  end.

Definition _getNodeAfter {P} (rootNode : noderef P) (offset : Z)
  : noderef P :=
  let result := _getNodeAfter_recurse rootNode offset in
  match result with
  | PyNone => PyNone
  | AVLNode _ _ _ _ _ _ => result
  end.

Definition getOffsetAfter {P} (rootNode : noderef P) (offset : Z)
  : option Z :=
  match _getNodeAfter rootNode offset with
  | AVLNode _ _ k _ _ _ => Some k
  | PyNone => None
  end.

Fixpoint _getNodeBefore_recurse {P} (node : noderef P) (offset : Z)
  : noderef P :=
  match node with
  | PyNone => PyNone
  | AVLNode _ _ k _ l r =>
      if k <? offset then py_or (_getNodeBefore_recurse r offset) node
      else if (offset <=? k) && truthy l then _getNodeBefore_recurse l offset
      else PyNone
  end.

Definition _getNodeBefore {P} (rootNode : noderef P) (offset : Z)
  : noderef P :=
  let result := _getNodeBefore_recurse rootNode offset in
  match result with
  | PyNone => PyNone
  | AVLNode _ _ _ _ _ _ => result
  end.

Definition getOffsetBefore {P} (rootNode : noderef P) (offset : Z)
  : option Z :=
  match _getNodeBefore rootNode offset with
  | PyNone => None
  | AVLNode _ _ k _ _ _ => Some k
  end.

(** The [while nextNode.leftChild] loop of [_remove]. *)
Fixpoint farthestLeft {P} (nextNode : noderef P) : result (noderef P) :=
  match nextNode with
  | PyNone => Raise AttributeError
  | AVLNode _ _ _ _ l _ =>
      if truthy l then farthestLeft l else Ok nextNode
  end.

(** [_remove(node, offset)].  With two children the offset and payload of
    the farthest left node of the right subtree are written into the
    node, and that offset is removed from the right subtree; otherwise
    the node is replaced by [node.leftChild or node.rightChild]. *)
Fixpoint _remove {P} (node : noderef P) (offset : Z) : result (noderef P) :=
  match node with
  | PyNone => _rebalance node
  | AVLNode b h k p l r =>
      if k =? offset then
        if truthy l && truthy r then
          nextNode <- farthestLeft r ;;
          match nextNode with
          | PyNone => Raise AttributeError
          | AVLNode _ _ nk np _ _ =>
              r1 <- _remove r nk ;;
              _rebalance (update (AVLNode b h nk np l r1))
          end
        else _rebalance (py_or l r)
      else if k >? offset then
        l1 <- _remove l offset ;;
        _rebalance (update (AVLNode b h k p l1 r))
      else if k <? offset then
        r1 <- _remove r offset ;;
        _rebalance (update (AVLNode b h k p l r1))
      else _rebalance node
  end.

End AVLTree.

(** ** Observations and invariants *)

Import AVLTree.

(** Height of a possibly absent child: the cached field, or [-1]. *)
Definition heightOf {P} (node : noderef P) : Z :=
  match node with
  | PyNone => -1
  | AVLNode _ h _ _ _ _ => h
  end.

(** The [(offset, payload)] pairs of the nodes yielded by [__iter__], in
    the order in which they are yielded. *)
Definition items {P} (rootNode : noderef P) : list (Z * option P) :=
  flat_map (fun n => match n with
                     | PyNone => []
                     | AVLNode _ _ k p _ _ => [(k, p)]
                     end) (__iter__ rootNode).

Definition keys {P} (rootNode : noderef P) : list Z :=
  map fst (items rootNode).

(** The offset carried by a reference, or absence. *)
Definition offsetOf {P} (node : noderef P) : option Z :=
  match node with
  | PyNone => None
  | AVLNode _ _ k _ _ _ => Some k
  end.

(** A property of the fields of every node of a tree. *)
Fixpoint everyNode {P} (Q : Z -> Z -> noderef P -> noderef P -> Prop)
  (node : noderef P) : Prop :=
  match node with
  | PyNone => True
  | AVLNode b h _ _ l r => Q b h l r /\ everyNode Q l /\ everyNode Q r
  end.

(** Invariant 1, search-tree order: the traversal yields strictly
    increasing keys. *)
Definition bstOrder {P} (rootNode : noderef P) : Prop :=
  StronglySorted Z.lt (keys rootNode).

(** Invariant 2, balance: every balance field is -1, 0 or 1. *)
Definition balanceOk {P} (rootNode : noderef P) : Prop :=
  everyNode (fun b _ _ _ => b = -1 \/ b = 0 \/ b = 1) rootNode.

(** Invariant 3, no stale cache: the [height] and [balance] fields of
    every node reflect its current children. *)
Definition heightOk {P} (rootNode : noderef P) : Prop :=
  everyNode (fun _ h l r => h = Z.max (heightOf l) (heightOf r) + 1) rootNode.

Definition balanceFresh {P} (rootNode : noderef P) : Prop :=
  everyNode (fun b _ l r => b = heightOf r - heightOf l) rootNode.

(** A tree satisfying the invariants. *)
Definition invariants {P} (rootNode : noderef P) : Prop :=
  bstOrder rootNode /\ balanceOk rootNode /\ heightOk rootNode
  /\ balanceFresh rootNode.

(** The shape part of the invariant, in the form used by the proofs. *)
Fixpoint avl {P} (node : noderef P) : Prop :=
  match node with
  | PyNone => True
  | AVLNode b h _ _ l r =>
      avl l /\ avl r
      /\ h = Z.max (heightOf l) (heightOf r) + 1
      /\ b = heightOf r - heightOf l
      /\ -1 <= b <= 1
  end.

(** Cached fields fresh everywhere, without any bound on the balance. *)
Fixpoint cached {P} (node : noderef P) : Prop :=
  match node with
  | PyNone => True
  | AVLNode b h _ _ l r =>
      cached l /\ cached r
      /\ h = Z.max (heightOf l) (heightOf r) + 1
      /\ b = heightOf r - heightOf l
  end.

(** A call that completes leaves the cached fields fresh, and a call that
    raises raises [TimespanException]. *)
Definition onlyTimespanException {P} (c : result (noderef P)) : Prop :=
  match c with
  | Ok t => cached t
  | Raise e => e = TimespanException
  end.

(** ** Sequences of operations on a tree *)

Inductive op : Type :=
| OpInsert (offset : Z)    (* [tree.insertAtOffset(offset)] *)
| OpRemove (offset : Z).   (* [tree.rootNode = tree._remove(tree.rootNode, offset)] *)

Definition applyOp {P} (rootNode : noderef P) (o : op) : result (noderef P) :=
  match o with
  | OpInsert k => insertAtOffset rootNode k
  | OpRemove k => _remove rootNode k
  end.

Fixpoint run {P} (ops : list op) (rootNode : noderef P) : result (noderef P) :=
  match ops with
  | [] => Ok rootNode
  | o :: rest => t <- applyOp rootNode o ;; run rest t
  end.

(** ** Example trees *)

(** A node without children, as [__init__] leaves it. *)
Definition leaf {P} (offset : Z) (payload : option P) : noderef P :=
  AVLNode 0 0 offset payload PyNone PyNone.

(** The docstring of [insertAtOffset]: offsets 20, 10, 5, 30 in turn. *)
Definition docOps : list op := [OpInsert 20; OpInsert 10; OpInsert 5; OpInsert 30].

Definition docAfter2 {P} : noderef P :=
  AVLNode (-1) 1 20 None (leaf 10 None) PyNone.

(** The root during the third insertion, after [update] and before
    [_rebalance]. *)
Definition docUnbalanced {P} : noderef P :=
  AVLNode (-2) 2 20 None (AVLNode (-1) 1 10 None (leaf 5 None) PyNone) PyNone.

Definition docAfter3 {P} : noderef P :=
  AVLNode 0 1 10 None (leaf 5 None) (leaf 20 None).

Definition docTree {P} : noderef P :=
  AVLNode 1 2 10 None (leaf 5 None)
          (AVLNode 1 1 20 None PyNone (leaf 30 None)).

(** The same shape, with payloads attached by a caller. *)
Definition paidTree : noderef string :=
  AVLNode 1 2 10 (Some "ten"%string) (leaf 5 (Some "five"%string))
          (AVLNode 1 1 20 None PyNone (leaf 30 (Some "thirty"%string))).

(** A left chain of five nodes with fresh cached fields: not an AVL tree. *)
Definition leftChain : noderef string :=
  AVLNode (-4) 4 50 None
    (AVLNode (-3) 3 40 None
       (AVLNode (-2) 2 30 None
          (AVLNode (-1) 1 20 None (leaf 10 None) PyNone) PyNone) PyNone)
    PyNone.

(** ** Reference operations on sorted association lists *)

Fixpoint insList {P} (k : Z) (xs : list (Z * option P)) : list (Z * option P) :=
  match xs with
  | [] => [(k, None)]
  | (x, p) :: rest =>
      if k <? x then (k, None) :: xs
      else if x <? k then (x, p) :: insList k rest
      else xs
  end.

Fixpoint delList {P} (k : Z) (xs : list (Z * option P)) : list (Z * option P) :=
  match xs with
  | [] => []
  | (x, p) :: rest => if x =? k then rest else (x, p) :: delList k rest
  end.

(** Smallest element above [k], largest element below [k], of a list. *)
Definition isLeastAbove (k : Z) (ks : list Z) (o : option Z) : Prop :=
  match o with
  | Some m => In m ks /\ k < m /\ forall x, In x ks -> k < x -> m <= x
  | None => forall x, In x ks -> x <= k
  end.

Definition isGreatestBelow (k : Z) (ks : list Z) (o : option Z) : Prop :=
  match o with
  | Some m => In m ks /\ m < k /\ forall x, In x ks -> x < k -> x <= m
  | None => forall x, In x ks -> k <= x
  end.

(** ** The tree as a finite map, and further observations *)

(** [getNodeByOffset(offset).payload], or absence when no node is found. *)
Definition payloadAt {P} (rootNode : noderef P) (offset : Z)
  : option (option P) :=
  match getNodeByOffset rootNode offset with
  | PyNone => None
  | AVLNode _ _ _ p _ _ => Some p
  end.

(** First payload bound to [k] in an association list. *)
Fixpoint lookupList {P} (k : Z) (xs : list (Z * option P))
  : option (option P) :=
  match xs with
  | [] => None
  | (x, p) :: rest => if x =? k then Some p else lookupList k rest
  end.

(** The operations on association lists that the tree operations refine. *)
Definition applyOpList {P} (xs : list (Z * option P)) (o : op)
  : list (Z * option P) :=
  match o with
  | OpInsert k => insList k xs
  | OpRemove k => delList k xs
  end.

Definition runList {P} (ops : list op) (xs : list (Z * option P))
  : list (Z * option P) :=
  fold_left applyOpList ops xs.


(** Number of nodes yielded by the traversal. *)
Definition size {P} (rootNode : noderef P) : Z :=
  Z.of_nat (List.length (__iter__ rootNode)).

(** The balance field of a node. *)
Definition balanceOf {P} (node : noderef P) : option Z :=
  match node with
  | PyNone => None
  | AVLNode b _ _ _ _ _ => Some b
  end.

(** The cached fields of the node itself reflect its children. *)
Definition freshRoot {P} (node : noderef P) : Prop :=
  match node with
  | PyNone => True
  | AVLNode b h _ _ l r =>
      h = Z.max (heightOf l) (heightOf r) + 1 /\ b = heightOf r - heightOf l
  end.

(** The lines of the dump, written directly: a node at depth [d] gives
    [d] tabs, the role of the node under its parent, and its [repr];
    the lines of its left subtree follow, then those of its right
    subtree. *)
Fixpoint tabs (d : nat) : string :=
  match d with
  | O => EmptyString
  | S d' => (tab ++ tabs d')%string
  end.

Definition reprOf {P} (node : noderef P) : string :=
  match AVLNode.__repr__ node with
  | Ok s => s
  | Raise _ => EmptyString
  end.

Fixpoint dump {P} (d : nat) (role : string) (node : noderef P) : list string :=
  match node with
  | PyNone => []
  | AVLNode _ _ _ _ l r =>
      (tabs d ++ role ++ reprOf node)%string
        :: dump (S d) "L: " l ++ dump (S d) "R: " r
  end.

(** * Properties *)

Section Properties.

Variable P : Type.

Implicit Types (t l r node : noderef P) (k offset : Z).

#[local] Arguments Z.add : simpl never.
#[local] Arguments Z.sub : simpl never.
#[local] Arguments Z.opp : simpl never.
#[local] Arguments Z.max : simpl never.
#[local] Arguments Z.ltb : simpl never.
#[local] Arguments Z.leb : simpl never.
#[local] Arguments Z.gtb : simpl never.
#[local] Arguments Z.eqb : simpl never.
#[local] Arguments AVLNode.update : simpl never.

(** ** The error monad *)

Lemma bind_inv (A B : Type) (c : result A) (f : A -> result B) (b : B) :
  bind c f = Ok b -> exists a, c = Ok a /\ f a = Ok b.
Proof.
  destruct c as [a|e]; simpl; intros H; [exists a; auto | discriminate].
Qed.

(** ** Heights, traversal *)

Lemma update_eq b h k p l r :
  AVLNode.update (AVLNode b h k p l r)
  = AVLNode (heightOf r - heightOf l) (Z.max (heightOf l) (heightOf r) + 1)
            k p l r.
Proof. reflexivity. Qed.

Lemma iter_guard t : (if truthy t then __iter__ t else []) = __iter__ t.
Proof. destruct t; reflexivity. Qed.

Lemma iter_node b h k p l r :
  __iter__ (AVLNode b h k p l r)
  = __iter__ l ++ AVLNode b h k p l r :: __iter__ r.
Proof. simpl. now rewrite !iter_guard. Qed.

Lemma items_None : items (@PyNone P) = [].
Proof. reflexivity. Qed.

Lemma items_node b h k p l r :
  items (AVLNode b h k p l r) = items l ++ (k, p) :: items r.
Proof.
  unfold items. rewrite iter_node, flat_map_app. reflexivity.
Qed.

Lemma keys_node b h k p l r :
  keys (AVLNode b h k p l r) = keys l ++ k :: keys r.
Proof. unfold keys. rewrite items_node, map_app. reflexivity. Qed.

Lemma items_update b h k p l r :
  items (AVLNode.update (AVLNode b h k p l r)) = items l ++ (k, p) :: items r.
Proof. rewrite update_eq. apply items_node. Qed.

Lemma iter_yields_nodes t n : In n (__iter__ t) -> truthy n = true.
Proof.
  induction t as [|b h k p l IHl r IHr]; [intros []|].
  rewrite iter_node. intros H. apply in_app_or in H.
  destruct H as [H|[H|H]]; auto. now subst n.
Qed.

Lemma avl_height t : avl t -> -1 <= heightOf t.
Proof.
  induction t as [|b h k p l IHl r IHr]; simpl; [lia|].
  intros (Hl & Hr & Hh & _). specialize (IHl Hl). specialize (IHr Hr). lia.
Qed.

Lemma avl_cached t : avl t -> cached t.
Proof.
  induction t as [|b h k p l IHl r IHr]; simpl; auto.
  intros (Hl & Hr & Hh & Hb & _); auto.
Qed.

Lemma cached_height t : cached t -> -1 <= heightOf t.
Proof.
  induction t as [|b h k p l IHl r IHr]; simpl; [lia|].
  intros (Hl & Hr & Hh & _). specialize (IHl Hl). specialize (IHr Hr). lia.
Qed.

Lemma avl_invariants t :
  avl t <-> balanceOk t /\ heightOk t /\ balanceFresh t.
Proof.
  unfold balanceOk, heightOk, balanceFresh.
  induction t as [|b h k p l IHl r IHr]; simpl; [tauto|].
  rewrite IHl, IHr. intuition lia.
Qed.

(** ** Rebalancing *)

Ltac fold_heights :=
  repeat match goal with
    | x : noderef _ |- _ => progress fold (heightOf x)
    end.

Ltac zbool :=
  repeat match goal with
    | |- context [?a <? ?b] => destruct (Z.ltb_spec a b); try lia
    | |- context [?a <=? ?b] => destruct (Z.leb_spec a b); try lia
    | |- context [?a >? ?b] => rewrite (Z.gtb_ltb a b)
    | |- context [?a =? ?b] => destruct (Z.eqb_spec a b); try lia
    end.

(** A node whose children are AVL and whose heights differ by at most 2 is
    rebalanced into an AVL tree with the same traversal, of height [H] or
    [H - 1] where [H] is the height before rebalancing; nothing changes
    when the heights differ by at most 1. *)
Lemma rebalance_spec b h k p l r :
  avl l -> avl r -> -2 <= heightOf r - heightOf l <= 2 ->
  exists t,
    _rebalance (AVLNode.update (AVLNode b h k p l r)) = Ok t
    /\ avl t
    /\ items t = items l ++ (k, p) :: items r
    /\ Z.max (heightOf l) (heightOf r) <= heightOf t
       <= Z.max (heightOf l) (heightOf r) + 1
    /\ (-1 <= heightOf r - heightOf l <= 1 ->
        t = AVLNode.update (AVLNode b h k p l r)).
Proof.
  intros Hl Hr Hd. rewrite update_eq.
  pose proof (avl_height _ Hl) as Hhl. pose proof (avl_height _ Hr) as Hhr.
  destruct (Z_lt_le_dec 1 (heightOf r - heightOf l)) as [Hgt|Hle].
  - (* right-heavy *)
    destruct r as [|rb rh rk rp rl rr]; simpl in *; [lia|].
    destruct Hr as (Hrl & Hrr & Hrh & Hrb & Hrange).
    pose proof (avl_height _ Hrl). pose proof (avl_height _ Hrr).
    unfold _rebalance.
    destruct (Z.ltb_spec 1 (rh - heightOf l)); [|lia].
    destruct (Z.leb_spec 0 rb).
    + simpl. rewrite ?update_eq. simpl. fold_heights.
      zbool. simpl. eexists; split; [reflexivity|].
      simpl. rewrite !items_node. rewrite <- ?app_assoc. simpl.
      repeat split; auto; try lia.
    + destruct rl as [|lb lh lk lp ll lr]; simpl in *; [lia|].
      destruct Hrl as (Hll & Hlr & Hlh & Hlb & Hlrange).
      pose proof (avl_height _ Hll). pose proof (avl_height _ Hlr).
      rewrite ?update_eq. simpl. rewrite ?update_eq. simpl. fold_heights.
      zbool. simpl. eexists; split; [reflexivity|].
      simpl. rewrite !items_node. rewrite <- ?app_assoc. simpl.
      rewrite <- ?app_assoc. simpl.
      repeat split; auto; try lia.
  - destruct (Z_lt_le_dec (heightOf r - heightOf l) (-1)) as [Hlt|Hge].
    + (* left-heavy *)
      destruct l as [|lb lh lk lp ll lr]; simpl in *; [lia|].
      destruct Hl as (Hll & Hlr & Hlh & Hlb & Hrange).
      pose proof (avl_height _ Hll). pose proof (avl_height _ Hlr).
      unfold _rebalance.
      destruct (Z.ltb_spec 1 (heightOf r - lh)); [lia|].
      destruct (Z.ltb_spec (heightOf r - lh) (-1)); [|lia].
      destruct (Z.leb_spec lb 0).
      * simpl. rewrite ?update_eq. simpl. fold_heights.
        zbool. simpl. eexists; split; [reflexivity|].
        simpl. rewrite !items_node. rewrite <- ?app_assoc. simpl.
        repeat split; auto; try lia.
      * destruct lr as [|rb rh rk rp rl rr]; simpl in *; [lia|].
        destruct Hlr as (Hrl & Hrr & Hrh & Hrb & Hrrange).
        pose proof (avl_height _ Hrl). pose proof (avl_height _ Hrr).
        rewrite ?update_eq. simpl. rewrite ?update_eq. simpl. fold_heights.
        zbool. simpl. eexists; split; [reflexivity|].
        simpl. rewrite !items_node. rewrite <- ?app_assoc. simpl.
        rewrite <- ?app_assoc. simpl.
        repeat split; auto; try lia.
    + (* already balanced *)
      unfold _rebalance.
      destruct (Z.ltb_spec 1 (heightOf r - heightOf l)); [lia|].
      destruct (Z.ltb_spec (heightOf r - heightOf l) (-1)); [lia|].
      simpl. zbool. simpl. eexists; split; [reflexivity|].
      simpl. rewrite items_node. repeat split; auto; lia.
Qed.

Lemma rebalance_avl t : avl t -> _rebalance t = Ok t.
Proof.
  destruct t as [|b h k p l r]; [reflexivity|].
  simpl. intros (_ & _ & _ & _ & Hb).
  unfold _rebalance. zbool. simpl. zbool. reflexivity.
Qed.

#[local] Arguments _rebalance : simpl never.

(** ** Sorted association lists *)

#[local] Abbreviation sorted xs := (StronglySorted Z.lt (map fst xs)).

Lemma SSorted_app (l1 l2 : list Z) :
  StronglySorted Z.lt (l1 ++ l2) <->
  StronglySorted Z.lt l1 /\ StronglySorted Z.lt l2
  /\ (forall a b, In a l1 -> In b l2 -> a < b).
Proof.
  induction l1 as [|x l1 IH]; simpl.
  - split; [intros H; repeat split; auto; [constructor | intros a b []]
           | tauto].
  - split.
    + intros H. inversion H as [|? ? Hs Hf]; subst.
      apply IH in Hs. destruct Hs as (H1 & H2 & H3).
      rewrite Forall_forall in Hf.
      repeat split; auto.
      * constructor; auto. rewrite Forall_forall. intros y Hy.
        apply Hf, in_or_app; auto.
      * intros a b [Ha|Ha] Hb; [subst a; apply Hf, in_or_app|]; auto.
    + intros (H1 & H2 & H3). inversion H1 as [|? ? Hs Hf]; subst.
      rewrite Forall_forall in Hf.
      constructor.
      * apply IH; repeat split; auto.
      * rewrite Forall_forall. intros y Hy. apply in_app_or in Hy.
        destruct Hy; auto.
Qed.

Lemma SSorted_mid (l1 l2 : list Z) (x : Z) :
  StronglySorted Z.lt (l1 ++ x :: l2) <->
  StronglySorted Z.lt l1 /\ StronglySorted Z.lt l2
  /\ (forall a, In a l1 -> a < x) /\ (forall b, In b l2 -> x < b).
Proof.
  rewrite SSorted_app. split.
  - intros (H1 & H2 & H3). inversion H2 as [|? ? Hs Hf]; subst.
    rewrite Forall_forall in Hf. repeat split; auto.
    intros a Ha. apply H3; simpl; auto.
  - intros (H1 & H2 & H3 & H4). repeat split; auto.
    + constructor; auto. now rewrite Forall_forall.
    + intros a b Ha [Hb|Hb]; [subst b; auto|].
      specialize (H3 a Ha). specialize (H4 b Hb). lia.
Qed.

Lemma bstOrder_node b h k p l r :
  bstOrder (AVLNode b h k p l r) <->
  bstOrder l /\ bstOrder r
  /\ (forall a, In a (keys l) -> a < k) /\ (forall c, In c (keys r) -> k < c).
Proof. unfold bstOrder. rewrite keys_node. apply SSorted_mid. Qed.

Lemma insList_keys k (xs : list (Z * option P)) x :
  In x (map fst (insList k xs)) <-> x = k \/ In x (map fst xs).
Proof.
  induction xs as [|[a q] xs IH]; simpl; [intuition|].
  zbool; simpl; rewrite ?IH; intuition lia.
Qed.

Lemma insList_sorted k (xs : list (Z * option P)) :
  sorted xs -> sorted (insList k xs).
Proof.
  induction xs as [|[a q] xs IH]; simpl; intros H.
  - repeat constructor.
  - inversion H as [|? ? Hs Hf]; subst. rewrite Forall_forall in Hf.
    zbool; simpl; auto.
    + constructor; auto. rewrite Forall_forall.
      intros y [Hy|Hy]; [subst y; auto|]. specialize (Hf y Hy). lia.
    + constructor; auto. rewrite Forall_forall. intros y Hy.
      apply insList_keys in Hy. destruct Hy; [lia | auto].
Qed.

Lemma insList_app_lt k x p (l1 l2 : list (Z * option P)) :
  k < x -> insList k (l1 ++ (x, p) :: l2) = insList k l1 ++ (x, p) :: l2.
Proof.
  intros Hk. induction l1 as [|[a q] l1 IH]; simpl.
  - zbool. reflexivity.
  - zbool; simpl; auto. now rewrite IH.
Qed.

Lemma insList_app_gt k x p (l1 l2 : list (Z * option P)) :
  (forall a, In a (map fst l1) -> a < x) -> x < k ->
  insList k (l1 ++ (x, p) :: l2) = l1 ++ (x, p) :: insList k l2.
Proof.
  intros Hl Hk. induction l1 as [|[a q] l1 IH]; simpl.
  - zbool. reflexivity.
  - assert (a < x) by (apply Hl; simpl; auto).
    zbool. rewrite IH; auto. intros y Hy. apply Hl; simpl; auto.
Qed.

Lemma insList_app_eq x p (l1 l2 : list (Z * option P)) :
  (forall a, In a (map fst l1) -> a < x) ->
  insList x (l1 ++ (x, p) :: l2) = l1 ++ (x, p) :: l2.
Proof.
  intros Hl. induction l1 as [|[a q] l1 IH]; simpl.
  - zbool. reflexivity.
  - assert (a < x) by (apply Hl; simpl; auto).
    zbool. rewrite IH; auto. intros y Hy. apply Hl; simpl; auto.
Qed.

Lemma delList_notin k (xs : list (Z * option P)) :
  ~ In k (map fst xs) -> delList k xs = xs.
Proof.
  induction xs as [|[a q] xs IH]; simpl; auto.
  intros H. zbool. rewrite IH; auto.
Qed.

Lemma delList_keys k (xs : list (Z * option P)) x :
  In x (map fst (delList k xs)) -> In x (map fst xs).
Proof.
  induction xs as [|[a q] xs IH]; simpl; auto.
  zbool; simpl; intuition.
Qed.

Lemma delList_sorted k (xs : list (Z * option P)) :
  sorted xs -> sorted (delList k xs).
Proof.
  induction xs as [|[a q] xs IH]; simpl; intros H; auto.
  inversion H as [|? ? Hs Hf]; subst. rewrite Forall_forall in Hf.
  zbool; simpl; auto.
  constructor; auto. rewrite Forall_forall. intros y Hy.
  apply Hf. eapply delList_keys; eauto.
Qed.

Lemma delList_gone k (xs : list (Z * option P)) :
  sorted xs -> ~ In k (map fst (delList k xs)).
Proof.
  induction xs as [|[a q] xs IH]; simpl; intros H; auto.
  inversion H as [|? ? Hs Hf]; subst. rewrite Forall_forall in Hf.
  zbool; simpl.
  - intros Hin. specialize (Hf _ Hin). lia.
  - intros [Hin|Hin]; [lia|]. now apply IH.
Qed.

Lemma delList_kept k (xs : list (Z * option P)) x q :
  x <> k -> In (x, q) xs -> In (x, q) (delList k xs).
Proof.
  intros Hx. induction xs as [|[a q'] xs IH]; simpl; auto.
  intros [Heq|Hin].
  - inversion Heq; subst. zbool. simpl; auto.
  - zbool; simpl; auto.
Qed.

Lemma delList_app_lt k x p (l1 l2 : list (Z * option P)) :
  (forall c, In c (map fst l2) -> x < c) -> k < x ->
  delList k (l1 ++ (x, p) :: l2) = delList k l1 ++ (x, p) :: l2.
Proof.
  intros Hr Hk. induction l1 as [|[a q] l1 IH]; simpl.
  - zbool. rewrite delList_notin; auto.
    intros Hin. specialize (Hr _ Hin). lia.
  - zbool; simpl; auto. now rewrite IH.
Qed.

Lemma delList_app_gt k x p (l1 l2 : list (Z * option P)) :
  (forall a, In a (map fst l1) -> a < x) -> x < k ->
  delList k (l1 ++ (x, p) :: l2) = l1 ++ (x, p) :: delList k l2.
Proof.
  intros Hl Hk. induction l1 as [|[a q] l1 IH]; simpl.
  - zbool. reflexivity.
  - assert (a < x) by (apply Hl; simpl; auto).
    zbool. rewrite IH; auto. intros y Hy. apply Hl; simpl; auto.
Qed.

Lemma delList_app_eq x p (l1 l2 : list (Z * option P)) :
  (forall a, In a (map fst l1) -> a < x) ->
  delList x (l1 ++ (x, p) :: l2) = l1 ++ l2.
Proof.
  intros Hl. induction l1 as [|[a q] l1 IH]; simpl.
  - zbool. reflexivity.
  - assert (a < x) by (apply Hl; simpl; auto).
    zbool. rewrite IH; auto. intros y Hy. apply Hl; simpl; auto.
Qed.

(** ** Insertion *)

Lemma update_height b h k p l r t :
  ((-1 <= heightOf r - heightOf l <= 1) ->
   t = AVLNode.update (AVLNode b h k p l r)) ->
  (-1 <= heightOf r - heightOf l <= 1) ->
  heightOf t = Z.max (heightOf l) (heightOf r) + 1.
Proof. intros H H1. rewrite (H H1), update_eq. reflexivity. Qed.

Lemma insert_spec t : forall k,
  avl t -> bstOrder t ->
  exists t',
    insertAtOffset t k = Ok t'
    /\ avl t'
    /\ items t' = insList k (items t)
    /\ heightOf t <= heightOf t' <= heightOf t + 1.
Proof.
  unfold insertAtOffset.
  induction t as [|b h x p l IHl r IHr]; intros k Havl Hbst.
  - simpl. eexists; split; [reflexivity|].
    unfold AVLNode.__init__; simpl. repeat split; auto; lia.
  - simpl in Havl. destruct Havl as (Hl & Hr & Hh & Hb & Hrange).
    apply bstOrder_node in Hbst. destruct Hbst as (Bl & Br & Blt & Bgt).
    pose proof (avl_height _ Hl). pose proof (avl_height _ Hr).
    rewrite items_node. simpl.
    destruct (Z.ltb_spec k x) as [Hlt|Hge].
    + destruct (IHl k Hl Bl) as (l1 & E & Al & Il & Hhl).
      rewrite E. simpl.
      destruct (rebalance_spec b h x p l1 r Al Hr) as (t' & E' & A' & I' & Hh' & Hid);
        [lia|].
      pose proof (update_height _ _ _ _ _ _ _ Hid) as Hht.
      exists t'. rewrite E'. simpl heightOf. repeat split; auto; try lia.
      rewrite I', Il. symmetry. now apply insList_app_lt.
    + destruct (Z.ltb_spec x k) as [Hgt|Hle].
      * destruct (IHr k Hr Br) as (r1 & E & Ar & Ir & Hhr).
        rewrite E. simpl.
        destruct (rebalance_spec b h x p l r1 Hl Ar) as (t' & E' & A' & I' & Hh' & Hid);
          [lia|].
        pose proof (update_height _ _ _ _ _ _ _ Hid) as Hht.
        exists t'. rewrite E'. simpl heightOf. repeat split; auto; try lia.
        rewrite I', Ir. symmetry. apply insList_app_gt; auto.
      * assert (k = x) by lia. subst k.
        assert (A : avl (AVLNode b h x p l r)) by (simpl; auto).
        rewrite (rebalance_avl _ A).
        eexists; split; [reflexivity|]. simpl heightOf.
        repeat split; auto; try lia.
        rewrite items_node. symmetry. apply insList_app_eq; auto.
Qed.

(** ** Removal *)

Lemma farthestLeft_spec r :
  truthy r = true ->
  exists nb nh nk np nr rest,
    farthestLeft r = Ok (AVLNode nb nh nk np PyNone nr)
    /\ items r = (nk, np) :: rest.
Proof.
  induction r as [|b h k p l IHl r IHr]; [discriminate|]. intros _.
  destruct l as [|lb lh lk lp ll lr].
  - simpl. exists b, h, k, p, r, (items r). split; [reflexivity|].
    now rewrite items_node.
  - destruct IHl as (nb & nh & nk & np & nr & rest & E & I); [reflexivity|].
    exists nb, nh, nk, np, nr, (rest ++ (k, p) :: items r).
    split.
    + simpl in *. exact E.
    + rewrite items_node, I. reflexivity.
Qed.

Lemma truthy_false t : truthy t = false -> t = PyNone.
Proof. destruct t; [reflexivity | discriminate]. Qed.

Lemma remove_spec t : forall k,
  avl t -> bstOrder t ->
  exists t',
    _remove t k = Ok t'
    /\ avl t'
    /\ items t' = delList k (items t)
    /\ heightOf t - 1 <= heightOf t' <= heightOf t.
Proof.
  induction t as [|b h x p l IHl r IHr]; intros k Havl Hbst.
  - exists PyNone. simpl. repeat split; auto; lia.
  - simpl in Havl. destruct Havl as (Hl & Hr & Hh & Hb & Hrange).
    apply bstOrder_node in Hbst. destruct Hbst as (Bl & Br & Blt & Bgt).
    pose proof (avl_height _ Hl). pose proof (avl_height _ Hr).
    rewrite items_node. simpl _remove. simpl heightOf.
    destruct (Z.eqb_spec x k) as [Heq|Hne].
    + subst k. rewrite delList_app_eq by auto.
      destruct (truthy l) eqn:Tl; [destruct (truthy r) eqn:Tr|]; simpl andb.
      * (* two children: the successor's key and payload move up *)
        destruct (farthestLeft_spec r Tr)
          as (nb & nh & nk & np & nr & rest & E & I).
        rewrite E. simpl bind.
        destruct (IHr nk Hr Br) as (r1 & E1 & Ar & Ir & Hhr).
        rewrite E1. simpl bind.
        destruct (rebalance_spec b h nk np l r1 Hl Ar)
          as (t' & E' & A' & I' & Hh' & Hid); [lia|].
        pose proof (update_height _ _ _ _ _ _ _ Hid) as Hht.
        exists t'. repeat split; auto; try lia.
        rewrite I', Ir, I. simpl. zbool. reflexivity.
      * (* only a left child *)
        apply truthy_false in Tr. subst r.
        unfold py_or. rewrite Tl. rewrite (rebalance_avl _ Hl).
        exists l. simpl in *. rewrite app_nil_r.
        repeat split; auto; lia.
      * (* no left child *)
        apply truthy_false in Tl. subst l.
        unfold py_or. simpl truthy. cbv iota. rewrite (rebalance_avl _ Hr).
        exists r. simpl in *. repeat split; auto; lia.
    + rewrite Z.gtb_ltb.
      destruct (Z.ltb_spec k x) as [Hlt|Hge].
      * destruct (IHl k Hl Bl) as (l1 & E & Al & Il & Hhl).
        rewrite E. simpl bind.
        destruct (rebalance_spec b h x p l1 r Al Hr)
          as (t' & E' & A' & I' & Hh' & Hid); [lia|].
        pose proof (update_height _ _ _ _ _ _ _ Hid) as Hht.
        exists t'. repeat split; auto; try lia.
        rewrite I', Il. symmetry. apply delList_app_lt; auto.
      * destruct (Z.ltb_spec x k) as [Hgt|Hle]; [|lia].
        destruct (IHr k Hr Br) as (r1 & E & Ar & Ir & Hhr).
        rewrite E. simpl bind.
        destruct (rebalance_spec b h x p l r1 Hl Ar)
          as (t' & E' & A' & I' & Hh' & Hid); [lia|].
        pose proof (update_height _ _ _ _ _ _ _ Hid) as Hht.
        exists t'. repeat split; auto; try lia.
        rewrite I', Ir. symmetry. apply delList_app_gt; auto.
Qed.

(** ** Sequences of operations *)

Lemma insert_invariant t k :
  avl t /\ bstOrder t ->
  exists t', insertAtOffset t k = Ok t' /\ avl t' /\ bstOrder t'.
Proof.
  intros (A & B). destruct (insert_spec t k A B) as (t' & E & A' & I & _).
  exists t'. repeat split; auto.
  unfold bstOrder, keys. rewrite I. now apply insList_sorted.
Qed.

Lemma remove_invariant t k :
  avl t /\ bstOrder t ->
  exists t', _remove t k = Ok t' /\ avl t' /\ bstOrder t'.
Proof.
  intros (A & B). destruct (remove_spec t k A B) as (t' & E & A' & I & _).
  exists t'. repeat split; auto.
  unfold bstOrder, keys. rewrite I. now apply delList_sorted.
Qed.

Lemma run_invariant ops : forall t,
  avl t /\ bstOrder t ->
  exists t', run ops t = Ok t' /\ avl t' /\ bstOrder t'.
Proof.
  induction ops as [|o ops IH]; intros t H.
  - exists t. split; [reflexivity | exact H].
  - assert (exists t1, applyOp t o = Ok t1 /\ avl t1 /\ bstOrder t1)
      as (t1 & E & H1).
    { destruct o; [apply insert_invariant | apply remove_invariant]; auto. }
    destruct (IH t1 H1) as (t' & E' & H').
    exists t'. split; auto. simpl. rewrite E. exact E'.
Qed.

Lemma run_app ops1 ops2 t :
  run (ops1 ++ ops2) t = (t1 <- run ops1 t ;; run ops2 t1).
Proof.
  revert t. induction ops1 as [|o ops1 IH]; intros t; simpl; auto.
  destruct (applyOp t o); simpl; auto.
Qed.

Lemma empty_invariant : avl (@PyNone P) /\ bstOrder (@PyNone P).
Proof. split; [exact I | constructor]. Qed.

(** ** Searches *)

Lemma getNodeByOffset_absent t k :
  ~ In k (keys t) -> getNodeByOffset t k = PyNone.
Proof.
  unfold getNodeByOffset.
  induction t as [|b h x p l IHl r IHr]; [reflexivity|].
  rewrite keys_node. intros H. simpl.
  assert (x <> k) by (intros ->; apply H, in_or_app; simpl; auto).
  assert (~ In k (keys l)) by (intros Hin; apply H, in_or_app; auto).
  assert (~ In k (keys r)) by (intros Hin; apply H, in_or_app; simpl; auto).
  destruct (Z.eqb_spec x k); [contradiction|].
  destruct (truthy l && (k <? x)); auto.
  destruct (truthy r && (x <? k)); auto.
Qed.

Lemma keys_truthy t k : In k (keys t) -> truthy t = true.
Proof. destruct t; [intros [] | reflexivity]. Qed.

Lemma getNodeByOffset_present t k :
  bstOrder t -> In k (keys t) ->
  exists b h p l r,
    getNodeByOffset t k = AVLNode b h k p l r /\ In (k, p) (items t).
Proof.
  unfold getNodeByOffset.
  induction t as [|b h x p l IHl r IHr]; [intros _ []|].
  intros Hbst Hin. apply bstOrder_node in Hbst.
  destruct Hbst as (Bl & Br & Blt & Bgt).
  rewrite keys_node in Hin. rewrite items_node. simpl.
  destruct (Z.eqb_spec x k) as [->|Hne].
  - exists b, h, p, l, r. split; auto. apply in_or_app; simpl; auto.
  - apply in_app_or in Hin. destruct Hin as [Hin|[Hin|Hin]]; [|contradiction|].
    + rewrite (keys_truthy _ _ Hin). specialize (Blt _ Hin).
      destruct (Z.ltb_spec k x); [|lia]. simpl.
      destruct (IHl Bl Hin) as (b' & h' & p' & l' & r' & E & I).
      exists b', h', p', l', r'. split; auto. apply in_or_app; auto.
    + specialize (Bgt _ Hin).
      destruct (Z.ltb_spec k x); [lia|]. rewrite andb_false_r.
      rewrite (keys_truthy _ _ Hin).
      destruct (Z.ltb_spec x k); [|lia]. simpl.
      destruct (IHr Br Hin) as (b' & h' & p' & l' & r' & E & I).
      exists b', h', p', l', r'. split; auto. apply in_or_app; simpl; auto.
Qed.

Lemma getOffsetAfter_eq t k :
  getOffsetAfter t k = offsetOf (_getNodeAfter_recurse t k).
Proof.
  unfold getOffsetAfter, _getNodeAfter.
  destruct (_getNodeAfter_recurse t k); reflexivity.
Qed.

Lemma getOffsetBefore_eq t k :
  getOffsetBefore t k = offsetOf (_getNodeBefore_recurse t k).
Proof.
  unfold getOffsetBefore, _getNodeBefore.
  destruct (_getNodeBefore_recurse t k); reflexivity.
Qed.

Lemma keys_None_nil t : truthy t = false -> keys t = [].
Proof. intros H. apply truthy_false in H. now subst t. Qed.

Lemma getNodeAfter_spec t k :
  bstOrder t -> isLeastAbove k (keys t) (offsetOf (_getNodeAfter_recurse t k)).
Proof.
  induction t as [|b h x p l IHl r IHr]; [intros _ y []|].
  intros Hbst. apply bstOrder_node in Hbst.
  destruct Hbst as (Bl & Br & Blt & Bgt).
  specialize (IHl Bl). specialize (IHr Br).
  rewrite keys_node. simpl.
  destruct (Z.leb_spec x k) as [Hle|Hgt]; simpl.
  - destruct (Z.ltb_spec k x); [lia|].
    destruct (truthy r) eqn:Tr.
    + destruct (_getNodeAfter_recurse r k) as [|b' h' m p' l' r']; simpl in *.
      * intros y Hy. apply in_app_or in Hy. destruct Hy as [Hy|[Hy|Hy]].
        -- specialize (Blt _ Hy). lia.
        -- lia.
        -- auto.
      * destruct IHr as (Hin & Hkm & Hmin). repeat split; auto.
        -- apply in_or_app; simpl; auto.
        -- intros y Hy Hky. apply in_app_or in Hy.
           destruct Hy as [Hy|[Hy|Hy]]; auto.
           ++ specialize (Blt _ Hy). lia.
           ++ lia.
    + simpl. rewrite (keys_None_nil _ Tr).
      intros y Hy. apply in_app_or in Hy. destruct Hy as [Hy|[Hy|[]]].
      * specialize (Blt _ Hy). lia.
      * lia.
  - destruct (Z.ltb_spec k x); [|lia]. unfold py_or.
    destruct (_getNodeAfter_recurse l k) as [|b' h' m p' l' r']; simpl in *.
    + repeat split; auto.
      * apply in_or_app; simpl; auto.
      * intros y Hy Hky. apply in_app_or in Hy.
        destruct Hy as [Hy|[Hy|Hy]].
        -- specialize (IHl _ Hy). lia.
        -- lia.
        -- specialize (Bgt _ Hy). lia.
    + destruct IHl as (Hin & Hkm & Hmin). repeat split; auto.
      * apply in_or_app; auto.
      * specialize (Blt _ Hin). intros y Hy Hky. apply in_app_or in Hy.
        destruct Hy as [Hy|[Hy|Hy]]; auto.
        -- lia.
        -- specialize (Bgt _ Hy). lia.
Qed.

Lemma getNodeBefore_spec t k :
  bstOrder t ->
  isGreatestBelow k (keys t) (offsetOf (_getNodeBefore_recurse t k)).
Proof.
  induction t as [|b h x p l IHl r IHr]; [intros _ y []|].
  intros Hbst. apply bstOrder_node in Hbst.
  destruct Hbst as (Bl & Br & Blt & Bgt).
  specialize (IHl Bl). specialize (IHr Br).
  rewrite keys_node. simpl.
  destruct (Z.ltb_spec x k) as [Hlt|Hge]; simpl.
  - unfold py_or.
    destruct (_getNodeBefore_recurse r k) as [|b' h' m p' l' r']; simpl in *.
    + repeat split; auto.
      * apply in_or_app; simpl; auto.
      * intros y Hy Hky. apply in_app_or in Hy.
        destruct Hy as [Hy|[Hy|Hy]].
        -- specialize (Blt _ Hy). lia.
        -- lia.
        -- specialize (IHr _ Hy). lia.
    + destruct IHr as (Hin & Hkm & Hmax). repeat split; auto.
      * apply in_or_app; simpl; auto.
      * specialize (Bgt _ Hin). intros y Hy Hky. apply in_app_or in Hy.
        destruct Hy as [Hy|[Hy|Hy]]; auto.
        -- specialize (Blt _ Hy). lia.
        -- lia.
  - destruct (Z.leb_spec k x); [|lia]. simpl.
    destruct (truthy l) eqn:Tl.
    + destruct (_getNodeBefore_recurse l k) as [|b' h' m p' l' r']; simpl in *.
      * intros y Hy. apply in_app_or in Hy. destruct Hy as [Hy|[Hy|Hy]].
        -- auto.
        -- lia.
        -- specialize (Bgt _ Hy). lia.
      * destruct IHl as (Hin & Hkm & Hmax). repeat split; auto.
        -- apply in_or_app; auto.
        -- intros y Hy Hky. apply in_app_or in Hy.
           destruct Hy as [Hy|[Hy|Hy]]; auto.
           ++ lia.
           ++ specialize (Bgt _ Hy). lia.
    + simpl. rewrite (keys_None_nil _ Tl).
      intros y [Hy|Hy].
      * lia.
      * specialize (Bgt _ Hy). lia.
Qed.

(** ** Operations that change nothing *)

Lemma update_avl b h k p l r :
  avl (AVLNode b h k p l r) ->
  AVLNode.update (AVLNode b h k p l r) = AVLNode b h k p l r.
Proof.
  simpl. intros (_ & _ & Hh & Hb & _). rewrite update_eq. now subst.
Qed.

Lemma insert_present t k :
  avl t -> bstOrder t -> In k (keys t) -> insertAtOffset t k = Ok t.
Proof.
  unfold insertAtOffset.
  induction t as [|b h x p l IHl r IHr]; [intros _ _ []|].
  intros Havl Hbst Hin.
  pose proof (update_avl _ _ _ _ _ _ Havl) as Hupd.
  pose proof (rebalance_avl _ Havl) as Hreb.
  simpl in Havl. destruct Havl as (Hl & Hr & _).
  apply bstOrder_node in Hbst. destruct Hbst as (Bl & Br & Blt & Bgt).
  rewrite keys_node in Hin. apply in_app_or in Hin. simpl.
  destruct Hin as [Hin|[Hin|Hin]].
  - specialize (Blt _ Hin). destruct (Z.ltb_spec k x); [|lia].
    rewrite (IHl Hl Bl Hin). simpl bind. now rewrite Hupd.
  - subst k. rewrite Z.ltb_irrefl. exact Hreb.
  - specialize (Bgt _ Hin). destruct (Z.ltb_spec k x); [lia|].
    destruct (Z.ltb_spec x k); [|lia].
    rewrite (IHr Hr Br Hin). simpl bind. now rewrite Hupd.
Qed.

Lemma remove_absent t k :
  avl t -> ~ In k (keys t) -> _remove t k = Ok t.
Proof.
  induction t as [|b h x p l IHl r IHr]; [reflexivity|].
  intros Havl Hnin.
  pose proof (update_avl _ _ _ _ _ _ Havl) as Hupd.
  pose proof (rebalance_avl _ Havl) as Hreb.
  simpl in Havl. destruct Havl as (Hl & Hr & _).
  rewrite keys_node in Hnin.
  assert (x <> k) by (intros ->; apply Hnin, in_or_app; simpl; auto).
  assert (Nl : ~ In k (keys l)) by (intros Hin; apply Hnin, in_or_app; auto).
  assert (Nr : ~ In k (keys r))
    by (intros Hin; apply Hnin, in_or_app; simpl; auto).
  simpl. destruct (Z.eqb_spec x k); [contradiction|].
  rewrite Z.gtb_ltb. destruct (Z.ltb_spec k x).
  - rewrite (IHl Hl Nl). simpl bind. now rewrite Hupd.
  - destruct (Z.ltb_spec x k); [|lia].
    rewrite (IHr Hr Nr). simpl bind. now rewrite Hupd.
Qed.

(** ** Rotations and insertion never touch offsets or payloads *)

Lemma rotateLeftLeft_items node t :
  _rotateLeftLeft node = Ok t -> items t = items node.
Proof.
  destruct node as [|b h k p [|lb lh lk lp ll lr] r]; try discriminate.
  simpl. rewrite !update_eq. intros [= <-].
  rewrite !items_node, <- app_assoc. reflexivity.
Qed.

Lemma rotateRightRight_items node t :
  _rotateRightRight node = Ok t -> items t = items node.
Proof.
  destruct node as [|b h k p l [|rb rh rk rp rl rr]]; try discriminate.
  simpl. rewrite !update_eq. intros [= <-].
  rewrite !items_node, <- app_assoc. reflexivity.
Qed.

Lemma rotateLeftRight_items node t :
  _rotateLeftRight node = Ok t -> items t = items node.
Proof.
  destruct node as [|b h k p l r]; try discriminate.
  unfold _rotateLeftRight. intros H. apply bind_inv in H.
  destruct H as (l1 & E1 & E2).
  apply rotateRightRight_items in E1. apply rotateLeftLeft_items in E2.
  rewrite E2, items_update, items_node, E1. reflexivity.
Qed.

Lemma rotateRightLeft_items node t :
  _rotateRightLeft node = Ok t -> items t = items node.
Proof.
  destruct node as [|b h k p l r]; try discriminate.
  unfold _rotateRightLeft. intros H. apply bind_inv in H.
  destruct H as (r1 & E1 & E2).
  apply rotateLeftLeft_items in E1. apply rotateRightRight_items in E2.
  rewrite E2, items_update, items_node, E1. reflexivity.
Qed.

Lemma rebalance_items node t :
  _rebalance node = Ok t -> items t = items node.
Proof.
  destruct node as [|b h k p l r]; unfold _rebalance; [now intros [= <-]|].
  intros H. apply bind_inv in H. destruct H as (n1 & E1 & E2).
  assert (t = n1) as ->.
  { destruct n1 as [|b1 ? ? ? ? ?]; [discriminate|]. simpl in E2.
    destruct ((b1 <? -1) || (1 <? b1)); [discriminate | now inversion E2]. }
  destruct (1 <? b).
  - destruct r as [|rb ? ? ? ? ?]; [discriminate|].
    destruct (0 <=? rb);
      [apply rotateRightRight_items | apply rotateRightLeft_items]; auto.
  - destruct (b <? -1).
    + destruct l as [|lb ? ? ? ? ?]; [discriminate|].
      destruct (lb <=? 0);
        [apply rotateLeftLeft_items | apply rotateLeftRight_items]; auto.
    + now inversion E1.
Qed.

Lemma insert_frame t : forall k t',
  insertAtOffset t k = Ok t' ->
  items t' = items t
  \/ exists xs ys, items t = xs ++ ys /\ items t' = xs ++ (k, None) :: ys.
Proof.
  unfold insertAtOffset.
  induction t as [|b h x p l IHl r IHr]; intros k t' H.
  - simpl in H. inversion H; subst. right. exists [], []. split; reflexivity.
  - simpl in H. destruct (k <? x).
    + apply bind_inv in H. destruct H as (l1 & E1 & E2).
      apply rebalance_items in E2. rewrite items_update in E2.
      rewrite E2, items_node.
      destruct (IHl _ _ E1) as [Il|(xs & ys & I1 & I2)].
      * left. now rewrite Il.
      * right. exists xs, (ys ++ (x, p) :: items r).
        rewrite I1, I2, <- !app_assoc. split; reflexivity.
    + destruct (x <? k).
      * apply bind_inv in H. destruct H as (r1 & E1 & E2).
        apply rebalance_items in E2. rewrite items_update in E2.
        rewrite E2, items_node.
        destruct (IHr _ _ E1) as [Ir|(xs & ys & I1 & I2)].
        -- left. now rewrite Ir.
        -- right. exists (items l ++ (x, p) :: xs), ys.
           rewrite I1, I2, <- !app_assoc. split; reflexivity.
      * left. now apply rebalance_items.
Qed.

(** ** With fresh cached fields, only [TimespanException] can be raised *)

Lemma update_cached b h k p l r :
  cached l -> cached r -> cached (AVLNode.update (AVLNode b h k p l r)).
Proof. intros Hl Hr. rewrite update_eq. simpl. auto. Qed.

Lemma rebalance_cached node :
  cached node -> onlyTimespanException (_rebalance node).
Proof.
  destruct node as [|b h k p l r]; [intros _; exact I|].
  simpl. intros (Hl & Hr & Hh & Hb).
  pose proof (cached_height _ Hl). pose proof (cached_height _ Hr).
  unfold _rebalance.
  destruct (Z.ltb_spec 1 b).
  - destruct r as [|rb rh rk rp rl rr]; simpl in *; [lia|].
    destruct Hr as (Hrl & Hrr & Hrh & Hrb).
    pose proof (cached_height _ Hrl). pose proof (cached_height _ Hrr).
    destruct (Z.leb_spec 0 rb).
    + simpl. rewrite ?update_eq. simpl.
      destruct (_ || _); simpl; repeat split; auto.
    + destruct rl as [|lb lh lk lp ll lr]; simpl in *; [lia|].
      destruct Hrl as (Hll & Hlr & Hlh & Hlb).
      rewrite ?update_eq. simpl. rewrite ?update_eq. simpl.
      destruct (_ || _); simpl; repeat split; auto.
  - destruct (Z.ltb_spec b (-1)).
    + destruct l as [|lb lh lk lp ll lr]; simpl in *; [lia|].
      destruct Hl as (Hll & Hlr & Hlh & Hlb).
      pose proof (cached_height _ Hll). pose proof (cached_height _ Hlr).
      destruct (Z.leb_spec lb 0).
      * simpl. rewrite ?update_eq. simpl.
        destruct (_ || _); simpl; repeat split; auto.
      * destruct lr as [|rb rh rk rp rl rr]; simpl in *; [lia|].
        destruct Hlr as (Hrl & Hrr & Hrh & Hrb).
        rewrite ?update_eq. simpl. rewrite ?update_eq. simpl.
        destruct (_ || _); simpl; repeat split; auto.
    + simpl. destruct (_ || _); simpl; repeat split; auto.
Qed.

Lemma insert_cached t : forall k,
  cached t -> onlyTimespanException (insertAtOffset t k).
Proof.
  unfold insertAtOffset.
  induction t as [|b h x p l IHl r IHr]; intros k Hc.
  - simpl. repeat split; auto.
  - pose proof (rebalance_cached _ Hc) as Hreb.
    simpl in Hc. destruct Hc as (Hl & Hr & _). simpl.
    destruct (k <? x).
    + specialize (IHl k Hl).
      destruct (insertAtOffset_recurse l k) as [l1|e]; simpl in *; auto.
      apply rebalance_cached, update_cached; auto.
    + destruct (x <? k); auto.
      specialize (IHr k Hr).
      destruct (insertAtOffset_recurse r k) as [r1|e]; simpl in *; auto.
      apply rebalance_cached, update_cached; auto.
Qed.

Lemma remove_cached t : forall k,
  cached t -> onlyTimespanException (_remove t k).
Proof.
  induction t as [|b h x p l IHl r IHr]; intros k Hc.
  - exact I.
  - pose proof (rebalance_cached _ Hc) as Hreb.
    simpl in Hc. destruct Hc as (Hl & Hr & _). simpl.
    destruct (x =? k).
    + destruct (truthy l) eqn:Tl; [destruct (truthy r) eqn:Tr|]; simpl andb.
      * destruct (farthestLeft_spec r Tr)
          as (nb & nh & nk & np & nr & rest & E & _).
        rewrite E. simpl bind. specialize (IHr nk Hr).
        destruct (_remove r nk) as [r1|e]; simpl in *; auto.
        apply rebalance_cached, update_cached; auto.
      * unfold py_or. rewrite Tl. now apply rebalance_cached.
      * unfold py_or. rewrite Tl. now apply rebalance_cached.
    + destruct (x >? k).
      * specialize (IHl k Hl).
        destruct (_remove l k) as [l1|e]; simpl in *; auto.
        apply rebalance_cached, update_cached; auto.
      * destruct (x <? k); auto.
        specialize (IHr k Hr).
        destruct (_remove r k) as [r1|e]; simpl in *; auto.
        apply rebalance_cached, update_cached; auto.
Qed.

(** * The claims *)

Lemma invariants_avl t : invariants t <-> avl t /\ bstOrder t.
Proof. unfold invariants. rewrite avl_invariants. tauto. Qed.

Lemma reachable_invariants (ops : list op) :
  exists t : noderef P, run ops AVLTree.__init__ = Ok t /\ invariants t.
Proof.
  destruct (run_invariant ops PyNone empty_invariant) as (t & E & H).
  exists t. split; [exact E | now apply invariants_avl].
Qed.

(** C1. Whatever sequence of [insertAtOffset] and [_remove] calls is applied
    to an empty tree, every call returns, and after each of them (after the
    first [n] operations, for every [n]) the traversal [__iter__] yields
    strictly increasing keys, every balance field is -1, 0 or 1, and every
    height field is [max(heightOf(left), heightOf(right)) + 1] with [-1]
    for an absent child; the balance field is moreover the difference of
    the children's heights. *)
Theorem invariants_after_every_operation (ops : list op) (n : nat) :
  exists t : noderef P,
    run (firstn n ops) AVLTree.__init__ = Ok t
    /\ StronglySorted Z.lt (keys t)
    /\ everyNode (fun b _ _ _ => b = -1 \/ b = 0 \/ b = 1) t
    /\ everyNode (fun _ h l r => h = Z.max (heightOf l) (heightOf r) + 1) t
    /\ everyNode (fun b _ l r => b = heightOf r - heightOf l) t.
Proof.
  destruct (reachable_invariants (firstn n ops)) as (t & E & Hinv).
  exists t. split; [exact E | exact Hinv].
Qed.

(** C2. On a tree in search-tree order, [getOffsetAfter(k)] is the smallest
    key strictly greater than [k] and [getOffsetBefore(k)] the largest key
    strictly less than [k]; [k] itself is never returned, and [None] is
    returned exactly when no key qualifies, in particular on the empty
    tree.  Every tree built from the empty tree by [insertAtOffset] and
    [_remove] is in search-tree order ([reachable_invariants]). *)
Theorem neighbour_offsets t k :
  bstOrder t ->
  isLeastAbove k (keys t) (getOffsetAfter t k)
  /\ isGreatestBelow k (keys t) (getOffsetBefore t k)
  /\ getOffsetAfter t k <> Some k
  /\ getOffsetBefore t k <> Some k
  /\ getOffsetAfter (@PyNone P) k = None
  /\ getOffsetBefore (@PyNone P) k = None.
Proof.
  intros Hbst.
  pose proof (getNodeAfter_spec t k Hbst) as Ha.
  pose proof (getNodeBefore_spec t k Hbst) as Hb.
  rewrite <- getOffsetAfter_eq in Ha. rewrite <- getOffsetBefore_eq in Hb.
  repeat split; auto.
  - intros E. rewrite E in Ha. simpl in Ha. lia.
  - intros E. rewrite E in Hb. simpl in Hb. lia.
Qed.

(** C3. On a tree satisfying the invariants, [insertAtOffset(k)] returns and
    [getNodeByOffset(k)] then finds a node with offset [k]; [_remove] of
    [k] returns and [getNodeByOffset(k)] then finds nothing. *)
Theorem insert_find_remove_find t k :
  invariants t ->
  (exists t' b h p l r,
      insertAtOffset t k = Ok t'
      /\ getNodeByOffset t' k = AVLNode b h k p l r)
  /\ (exists t', _remove t k = Ok t' /\ getNodeByOffset t' k = PyNone).
Proof.
  intros H. apply invariants_avl in H. destruct H as (A & B). split.
  - destruct (insert_spec t k A B) as (t' & E & A' & I & _).
    assert (B' : bstOrder t')
      by (unfold bstOrder, keys; rewrite I; now apply insList_sorted).
    assert (Hin : In k (keys t'))
      by (unfold keys; rewrite I; apply insList_keys; auto).
    destruct (getNodeByOffset_present t' k B' Hin)
      as (b & h & p & l & r & G & _).
    exists t', b, h, p, l, r. auto.
  - destruct (remove_spec t k A B) as (t' & E & A' & I & _).
    exists t'. split; auto. apply getNodeByOffset_absent.
    unfold keys. rewrite I. now apply delList_gone.
Qed.

(** C4. [_rebalance] on a node with balance above 1 applies the single left
    rotation [_rotateRightRight] when the right child's balance is at least
    0 and the right-then-left double rotation [_rotateRightLeft] otherwise;
    with balance below -1 it applies the single right rotation
    [_rotateLeftLeft] when the left child's balance is at most 0 and the
    left-then-right double rotation [_rotateLeftRight] otherwise.  The
    single right rotation makes the left child the root of the subtree,
    hangs that child's former right subtree as the left child of the
    demoted node, and recomputes the demoted node's height before the
    promoted node's, which reads it. *)
Theorem rebalance_rotations b h k p l r :
  let node := AVLNode b h k p l r in
  (forall rb rh rk rp rl rr,
      r = AVLNode rb rh rk rp rl rr -> 1 < b ->
      (0 <= rb ->
       _rebalance node = (n1 <- _rotateRightRight node ;; _rebalance_recheck n1))
      /\ (rb < 0 ->
          _rebalance node
          = (n1 <- _rotateRightLeft node ;; _rebalance_recheck n1)))
  /\ (forall lb lh lk lp ll lr,
         l = AVLNode lb lh lk lp ll lr -> b < -1 ->
         (lb <= 0 ->
          _rebalance node
          = (n1 <- _rotateLeftLeft node ;; _rebalance_recheck n1))
         /\ (0 < lb ->
             _rebalance node
             = (n1 <- _rotateLeftRight node ;; _rebalance_recheck n1)))
  /\ (forall lb lh lk lp ll lr,
         l = AVLNode lb lh lk lp ll lr ->
         let demotedHeight := Z.max (heightOf lr) (heightOf r) + 1 in
         _rotateLeftLeft node
         = Ok (AVLNode (demotedHeight - heightOf ll)
                       (Z.max (heightOf ll) demotedHeight + 1)
                       lk lp ll
                       (AVLNode (heightOf r - heightOf lr) demotedHeight
                                k p lr r)))
  /\ (forall rb rh rk rp rl rr,
         r = AVLNode rb rh rk rp rl rr ->
         let demotedHeight := Z.max (heightOf l) (heightOf rl) + 1 in
         _rotateRightRight node
         = Ok (AVLNode (heightOf rr - demotedHeight)
                       (Z.max demotedHeight (heightOf rr) + 1)
                       rk rp
                       (AVLNode (heightOf rl - heightOf l) demotedHeight
                                k p l rl)
                       rr))
  /\ _rotateRightLeft node
     = (r1 <- _rotateLeftLeft r ;;
        _rotateRightRight (AVLNode.update (AVLNode b h k p l r1)))
  /\ _rotateLeftRight node
     = (l1 <- _rotateRightRight l ;;
        _rotateLeftLeft (AVLNode.update (AVLNode b h k p l1 r))).
Proof.
  intros node. subst node.
  split; [|split; [|split; [|split; [|split]]]].
  - intros rb rh rk rp rl rr -> Hb.
    split; intros Hrb; unfold _rebalance; zbool; reflexivity.
  - intros lb lh lk lp ll lr -> Hb.
    split; intros Hlb; unfold _rebalance; zbool; reflexivity.
  - intros lb lh lk lp ll lr ->. reflexivity.
  - intros rb rh rk rp rl rr ->. reflexivity.
  - reflexivity.
  - reflexivity.
Qed.

(** C5. With fresh cached fields the only exception [insertAtOffset] and
    [_remove] can raise is [TimespanException], which the recheck at the
    end of [_rebalance] raises exactly when the balance is still outside
    [-1, 1].  On every tree built from the empty tree by [insertAtOffset]
    and [_remove], both methods return for every key; a key that is
    absent makes [getNodeByOffset] return [None] and [_remove] return the
    tree as it is, and a key that is present makes [insertAtOffset] return
    the tree as it is. *)
Theorem no_fault_on_reachable_trees :
  (forall (t : noderef P) k e,
      cached t ->
      (insertAtOffset t k = Raise e -> e = TimespanException)
      /\ (_remove t k = Raise e -> e = TimespanException))
  /\ (forall b h k p (l r : noderef P),
         _rebalance_recheck (AVLNode b h k p l r) = Raise TimespanException
         <-> (b < -1 \/ 1 < b))
  /\ (forall ops : list op,
         exists t : noderef P,
           run ops AVLTree.__init__ = Ok t
           /\ forall k,
               (exists t', insertAtOffset t k = Ok t')
               /\ (exists t', _remove t k = Ok t')
               /\ (~ In k (keys t) ->
                   getNodeByOffset t k = PyNone /\ _remove t k = Ok t)
               /\ (In k (keys t) -> insertAtOffset t k = Ok t)).
Proof.
  split; [|split].
  - intros t k e Hc. split; intros E.
    + pose proof (insert_cached t k Hc) as H. now rewrite E in H.
    + pose proof (remove_cached t k Hc) as H. now rewrite E in H.
  - intros b h k p l r. simpl.
    destruct (Z.ltb_spec b (-1)); destruct (Z.ltb_spec 1 b); simpl;
      split; intros H1; try discriminate; try reflexivity; lia.
  - intros ops. destruct (reachable_invariants ops) as (t & E & Hinv).
    exists t. split; [exact E|]. intros k.
    apply invariants_avl in Hinv. destruct Hinv as (A & B).
    destruct (insert_spec t k A B) as (t1 & E1 & _).
    destruct (remove_spec t k A B) as (t2 & E2 & _).
    repeat split; eauto.
    + now apply getNodeByOffset_absent.
    + now apply remove_absent.
    + now apply insert_present.
Qed.

(** C6. On a tree satisfying the invariants, [insertAtOffset(k)] with [k]
    already present returns the tree it was given, field for field, with
    the payload of the node at [k] as it was; hence inserting [k] twice
    gives the same tree as inserting it once.  Every tree built from the
    empty tree by [insertAtOffset] and [_remove] satisfies the invariants
    ([reachable_invariants]), whatever payloads callers attach. *)
Theorem insert_idempotent t k :
  invariants t ->
  (In k (keys t) -> insertAtOffset t k = Ok t)
  /\ (exists t1, insertAtOffset t k = Ok t1 /\ insertAtOffset t1 k = Ok t1).
Proof.
  intros H. apply invariants_avl in H. destruct H as (A & B). split.
  - now apply insert_present.
  - destruct (insert_spec t k A B) as (t1 & E & A1 & I & _).
    exists t1. split; auto. apply insert_present; auto.
    + unfold bstOrder, keys. rewrite I. now apply insList_sorted.
    + unfold keys. rewrite I. apply insList_keys. auto.
Qed.

(** C7. On a tree satisfying the invariants, [_remove(root, k)] with [k]
    absent returns the tree it was given: same shape, keys, payloads and
    cached fields.  The empty tree is one such tree. *)
Theorem remove_absent_is_noop t k :
  invariants t -> ~ In k (keys t) -> _remove t k = Ok t.
Proof.
  intros H Hnin. apply invariants_avl in H. destruct H as (A & _).
  now apply remove_absent.
Qed.

(** C8. Inserting 20, 10, 5, 30 into an empty tree: after 20 and 10 the
    root is 20 with left child 10; inserting 5 makes the root's balance -2
    with a left child of balance -1, [_rebalance] answers with
    [_rotateLeftLeft], and 10 becomes the root; after 30 the root is 10
    with height 2, its left child is the leaf 5, and its right child is 20
    with right child 30. *)
Theorem docstring_scenario :
  run docOps (@PyNone P) = Ok docTree
  /\ run (firstn 2 docOps) (@PyNone P) = Ok docAfter2
  /\ (l1 <- insertAtOffset (leaf 10 None) 5 ;;
      Ok (AVLNode.update (AVLNode (-1) 1 20 (@None P) l1 PyNone)))
     = Ok docUnbalanced
  /\ insertAtOffset (@docAfter2 P) 5 = _rebalance docUnbalanced
  /\ _rebalance (@docUnbalanced P) = _rotateLeftLeft docUnbalanced
  /\ _rotateLeftLeft (@docUnbalanced P) = Ok docAfter3
  /\ insertAtOffset (@docAfter3 P) 30 = Ok docTree
  /\ @docTree P
     = AVLNode 1 2 10 None
         (AVLNode 0 0 5 None PyNone PyNone)
         (AVLNode 1 1 20 None PyNone (AVLNode 0 0 30 None PyNone PyNone)).
Proof. repeat split; reflexivity. Qed.

(** C9. [insertAtOffset] leaves the offset and the payload of every node
    as they were: the [(offset, payload)] pairs met by the traversal after
    the call are those met before it, in the same order, with at most one
    new pair [(k, None)] inserted among them.  On a tree satisfying the
    invariants the call returns, and the new pair is put at its sorted
    position unless [k] was present. *)
Theorem insert_preserves_payloads t k :
  (invariants t ->
   exists t', insertAtOffset t k = Ok t'
              /\ items t' = insList k (items t))
  /\ forall t',
      insertAtOffset t k = Ok t' ->
      (items t' = items t
       \/ exists xs ys,
           items t = xs ++ ys /\ items t' = xs ++ (k, None) :: ys)
      /\ (forall x q, In (x, q) (items t) -> In (x, q) (items t'))
      /\ (forall x q, In (x, q) (items t') ->
                      In (x, q) (items t) \/ (x, q) = (k, None)).
Proof.
  split.
  - intros H. apply invariants_avl in H. destruct H as (A & B).
    destruct (insert_spec t k A B) as (t' & E & _ & I & _). eauto.
  - intros t' E. pose proof (insert_frame t k t' E) as H.
    split; [exact H|].
    destruct H as [H|(xs & ys & H1 & H2)]; rewrite ?H, ?H1, ?H2.
    + split; auto.
    + split; intros x q Hin; apply in_app_or in Hin.
      * apply in_or_app. simpl. tauto.
      * destruct Hin as [Hin|[Hin|Hin]]; auto;
          left; apply in_or_app; auto.
Qed.

#[local] Arguments AVLNode._getDebugPieces : simpl never.
#[local] Arguments AVLNode.__repr__ : simpl never.

Lemma repr_total b h k p l r :
  exists s, AVLNode.__repr__ (AVLNode b h k p l r) = Ok s.
Proof. eexists. reflexivity. Qed.

Lemma getDebugPieces_total node :
  truthy node = true ->
  exists first rest,
    AVLNode.__repr__ node = Ok first
    /\ AVLNode._getDebugPieces node = Ok (first :: rest).
Proof.
  induction node as [|b h k p l IHl r IHr]; [discriminate|]. intros _.
  destruct (repr_total b h k p l r) as (s & Es).
  change (AVLNode._getDebugPieces (AVLNode b h k p l r)) with
    (r0 <- AVLNode.__repr__ (AVLNode b h k p l r) ;;
     result1 <-
       (if truthy l then
          subresult <- AVLNode._getDebugPieces l ;;
          match subresult with
          | [] => Raise IndexError
          | s0 :: rest =>
              Ok ([r0] ++ [(tab ++ "L: " ++ s0)%string]
                    ++ map (fun x => (tab ++ x)%string) rest)
          end
        else Ok [r0]) ;;
     if truthy r then
       subresult <- AVLNode._getDebugPieces r ;;
       match subresult with
       | [] => Raise IndexError
       | s0 :: rest =>
           Ok (result1 ++ [(tab ++ "R: " ++ s0)%string]
                 ++ map (fun x => (tab ++ x)%string) rest)
       end
     else Ok result1).
  rewrite Es. simpl bind.
  destruct (truthy l) eqn:Tl.
  - destruct (IHl eq_refl) as (fl & rl & _ & El). rewrite El. simpl.
    destruct (truthy r) eqn:Tr.
    + destruct (IHr eq_refl) as (fr & rr & _ & Er). rewrite Er. simpl. eauto.
    + eauto.
  - simpl. destruct (truthy r) eqn:Tr.
    + destruct (IHr eq_refl) as (fr & rr & _ & Er). rewrite Er. simpl. eauto.
    + eauto.
Qed.

(** C10. [AVLTree.debug()] on an empty tree returns the empty string; on a
    tree with a root it returns what [rootNode.debug()] returns, which is
    the lines of [_getDebugPieces] joined by newlines, the first of them
    the [repr] of the root.  It never raises. *)
Theorem debug_of_tree :
  AVLTree.debug (@PyNone P) = Ok EmptyString
  /\ (forall b h k p (l r : noderef P),
         let rootNode := AVLNode b h k p l r in
         AVLTree.debug rootNode = AVLNode.debug rootNode
         /\ exists first rest,
             AVLNode.__repr__ rootNode = Ok first
             /\ AVLNode._getDebugPieces rootNode = Ok (first :: rest)
             /\ AVLTree.debug rootNode
                = Ok (String.concat newline (first :: rest)))
  /\ AVLTree.debug (@docTree P)
     = Ok ("<Node: Start:10 Height:2 L:0 R:1>" ++ newline
           ++ tab ++ "L: <Node: Start:5 Height:0 L:None R:None>" ++ newline
           ++ tab ++ "R: <Node: Start:20 Height:1 L:None R:0>" ++ newline
           ++ tab ++ tab ++ "R: <Node: Start:30 Height:0 L:None R:None>")%string.
Proof.
  split; [reflexivity|]. split; [|reflexivity].
  intros b h k p l r rootNode. split; [reflexivity|].
  destruct (getDebugPieces_total rootNode eq_refl) as (first & rest & Er & Ep).
  exists first, rest. repeat split; auto.
  unfold AVLTree.debug, AVLNode.debug. subst rootNode. cbv iota.
  now rewrite Ep.
Qed.

End Properties.

(** * The theorems at concrete trees *)

Ltac by_computation :=
  repeat match goal with
    | |- _ /\ _ => split
    | |- StronglySorted _ _ => constructor
    | |- Forall _ _ => constructor
    | |- True => exact I
    end;
  try reflexivity; try lia.

Ltac tree_invariants :=
  unfold invariants, bstOrder, balanceOk, heightOk, balanceFresh;
  simpl; by_computation.

Lemma neighbour_offsets_witness :
  bstOrder paidTree
  /\ isLeastAbove 10 (keys paidTree) (getOffsetAfter paidTree 10)
  /\ getOffsetAfter paidTree 10 = Some 20
  /\ getOffsetBefore paidTree 10 = Some 5.
Proof.
  assert (H : bstOrder paidTree) by (unfold bstOrder; simpl; by_computation).
  split; [exact H|].
  split; [exact (proj1 (neighbour_offsets string paidTree 10 H))|].
  split; reflexivity.
Defined.

Lemma insert_find_remove_find_witness :
  invariants paidTree
  /\ (exists t' b h p l r,
         insertAtOffset paidTree 7 = Ok t'
         /\ getNodeByOffset t' 7 = AVLNode b h 7 p l r)
  /\ (exists t', _remove paidTree 7 = Ok t' /\ getNodeByOffset t' 7 = PyNone).
Proof.
  assert (H : invariants paidTree) by tree_invariants.
  split; [exact H|].
  exact (insert_find_remove_find string paidTree 7 H).
Defined.

Lemma rebalance_rotations_witness :
  -2 < -1 /\ -1 <= 0
  /\ _rebalance (@docUnbalanced string)
     = (n1 <- _rotateLeftLeft (@docUnbalanced string) ;; _rebalance_recheck n1).
Proof.
  assert (Hb : -2 < -1) by lia.
  assert (Hl : -1 <= 0) by lia.
  split; [exact Hb|]. split; [exact Hl|].
  exact (proj1 (proj1 (proj2
           (rebalance_rotations string (-2) 2 20 None
              (AVLNode (-1) 1 10 None (leaf 5 None) PyNone) PyNone))
           (-1) 1 10 None (leaf 5 None) PyNone eq_refl Hb) Hl).
Defined.

Lemma no_fault_on_reachable_trees_witness :
  cached leftChain
  /\ insertAtOffset leftChain 50 = Raise TimespanException
  /\ TimespanException = TimespanException
  /\ exists t : noderef string,
      run docOps AVLTree.__init__ = Ok t
      /\ exists t', insertAtOffset t 7 = Ok t'.
Proof.
  assert (Hc : cached leftChain) by (simpl; by_computation).
  assert (E : insertAtOffset leftChain 50 = Raise TimespanException)
    by reflexivity.
  split; [exact Hc|]. split; [exact E|].
  destruct (no_fault_on_reachable_trees string) as (Honly & _ & Hrun).
  split; [exact (proj1 (Honly leftChain 50 TimespanException Hc) E)|].
  destruct (Hrun docOps) as (t & Et & Hk).
  exists t. split; [exact Et|]. exact (proj1 (Hk 7)).
Defined.

Lemma insert_idempotent_witness :
  invariants paidTree /\ In 10 (keys paidTree)
  /\ insertAtOffset paidTree 10 = Ok paidTree.
Proof.
  assert (H : invariants paidTree) by tree_invariants.
  assert (Hin : In 10 (keys paidTree)) by (simpl; tauto).
  split; [exact H|]. split; [exact Hin|].
  exact (proj1 (insert_idempotent string paidTree 10 H) Hin).
Defined.

Lemma remove_absent_is_noop_witness :
  invariants paidTree /\ ~ In 7 (keys paidTree)
  /\ _remove paidTree 7 = Ok paidTree.
Proof.
  assert (H : invariants paidTree) by tree_invariants.
  assert (Hnin : ~ In 7 (keys paidTree)) by (simpl; lia).
  split; [exact H|]. split; [exact Hnin|].
  exact (remove_absent_is_noop string paidTree 7 H Hnin).
Defined.

Lemma insert_preserves_payloads_witness :
  invariants paidTree
  /\ exists t',
      insertAtOffset paidTree 7 = Ok t'
      /\ items t' = insList 7 (items paidTree)
      /\ (forall x q, In (x, q) (items paidTree) -> In (x, q) (items t')).
Proof.
  assert (H : invariants paidTree) by tree_invariants.
  split; [exact H|].
  destruct (insert_preserves_payloads string paidTree 7) as (Hret & Hframe).
  destruct (Hret H) as (t' & E & I).
  exists t'. split; [exact E|]. split; [exact I|].
  exact (proj1 (proj2 (Hframe t' E))).
Defined.

(** * Further evaluations of the model *)

(** Removing the root of the docstring tree, which has two children: the
    successor's key and payload move to the root. *)
Example remove_root_with_two_children :
  _remove paidTree 10
  = Ok (AVLNode 0 1 20 None (leaf 5 (Some "five"%string))
                (leaf 30 (Some "thirty"%string))).
Proof. reflexivity. Qed.

(** Offsets 0 to 7 in ascending order give the shape printed in the
    docstrings of the module, and the neighbours the docstrings of
    [getOffsetBefore] and [getOffsetAfter] describe. *)
Example ascending_offsets :
  exists t : noderef string,
    run (map OpInsert [0; 1; 2; 3; 4; 5; 6; 7]) PyNone = Ok t
    /\ keys t = [0; 1; 2; 3; 4; 5; 6; 7]
    /\ heightOf t = 3
    /\ getOffsetBefore t 100 = Some 7
    /\ getOffsetBefore t 0 = None
    /\ getOffsetAfter t (-999) = Some 0
    /\ getOffsetAfter t 35 = None.
Proof. eexists. repeat split; reflexivity. Qed.

(** A tree that is not balanced can make the recheck of [_rebalance]
    fail. *)
Example recheck_can_fail :
  insertAtOffset leftChain 50 = Raise TimespanException.
Proof. reflexivity. Qed.

(** * Further properties of the module *)

Section Further.

Variable P : Type.

Implicit Types (t l r node : noderef P) (k offset : Z).

#[local] Arguments Z.add : simpl never.
#[local] Arguments Z.sub : simpl never.
#[local] Arguments Z.opp : simpl never.
#[local] Arguments Z.max : simpl never.
#[local] Arguments Z.ltb : simpl never.
#[local] Arguments Z.leb : simpl never.
#[local] Arguments Z.gtb : simpl never.
#[local] Arguments Z.eqb : simpl never.
#[local] Arguments Z.pow : simpl never.
#[local] Arguments Z.div : simpl never.
#[local] Arguments AVLNode.update : simpl never.
#[local] Arguments _rebalance : simpl never.

#[local] Abbreviation sortedKeys xs := (StronglySorted Z.lt (map fst xs)).

Ltac zcases :=
  repeat match goal with
    | |- context [?a <? ?b] => destruct (Z.ltb_spec a b); try lia
    | |- context [?a <=? ?b] => destruct (Z.leb_spec a b); try lia
    | |- context [?a =? ?b] => destruct (Z.eqb_spec a b); try lia
    end.

(** ** Lookup in a sorted association list *)

Lemma lookupList_notin k (xs : list (Z * option P)) :
  ~ In k (map fst xs) -> lookupList k xs = None.
Proof.
  induction xs as [|[x p] xs IH]; simpl; auto.
  intros H. zcases. apply IH. tauto.
Qed.

Lemma lookupList_in k p (xs : list (Z * option P)) :
  sortedKeys xs -> In (k, p) xs -> lookupList k xs = Some p.
Proof.
  induction xs as [|[x q] xs IH]; simpl; [intros _ []|].
  intros Hs Hin. inversion Hs as [|? ? Hs' Hf]; subst.
  rewrite Forall_forall in Hf.
  destruct Hin as [Heq|Hin].
  - inversion Heq; subst. now rewrite Z.eqb_refl.
  - assert (x < k) by (apply Hf; change k with (fst (k, p)); now apply in_map).
    zcases. auto.
Qed.

Lemma lookupList_found k p (xs : list (Z * option P)) :
  lookupList k xs = Some p -> In (k, p) xs.
Proof.
  induction xs as [|[x q] xs IH]; simpl; [discriminate|].
  destruct (Z.eqb_spec x k).
  - intros [= ->]. subst. auto.
  - auto.
Qed.

Lemma lookupList_insList_other k k' (xs : list (Z * option P)) :
  k' <> k -> lookupList k' (insList k xs) = lookupList k' xs.
Proof.
  intros Hne. induction xs as [|[x p] xs IH]; simpl.
  - zcases. reflexivity.
  - destruct (Z.ltb_spec k x); simpl.
    + zcases; reflexivity.
    + destruct (Z.ltb_spec x k); simpl; [|reflexivity].
      now rewrite IH.
Qed.

Lemma lookupList_insList_same k (xs : list (Z * option P)) :
  sortedKeys xs ->
  lookupList k (insList k xs)
  = match lookupList k xs with
    | Some p => Some p
    | None => Some None
    end.
Proof.
  induction xs as [|[x p] xs IH]; simpl; intros Hs.
  - now rewrite Z.eqb_refl.
  - inversion Hs as [|? ? Hs' Hf]; subst. rewrite Forall_forall in Hf.
    destruct (Z.ltb_spec k x); simpl.
    + rewrite Z.eqb_refl. zcases. rewrite lookupList_notin; auto.
      intros Hin. specialize (Hf _ Hin). lia.
    + destruct (Z.ltb_spec x k); simpl.
      * zcases. auto.
      * assert (x = k) by lia. subst. now rewrite Z.eqb_refl.
Qed.

Lemma lookupList_delList_other k k' (xs : list (Z * option P)) :
  k' <> k -> lookupList k' (delList k xs) = lookupList k' xs.
Proof.
  intros Hne. induction xs as [|[x p] xs IH]; simpl; auto.
  destruct (Z.eqb_spec x k); simpl.
  - zcases. reflexivity.
  - now rewrite IH.
Qed.

Lemma lookupList_delList_same k (xs : list (Z * option P)) :
  sortedKeys xs -> lookupList k (delList k xs) = None.
Proof.
  intros Hs. apply lookupList_notin. now apply delList_gone.
Qed.

(** ** Lookup in the tree *)

Lemma in_iter_items t b h k p l r :
  In (AVLNode b h k p l r) (__iter__ t) -> In (k, p) (items t).
Proof.
  intros H. unfold items. apply in_flat_map.
  exists (AVLNode b h k p l r). simpl. auto.
Qed.

Lemma in_iter_keys t n k :
  In n (__iter__ t) -> offsetOf n = Some k -> In k (keys t).
Proof.
  destruct n as [|b h x p l r]; [discriminate|].
  intros H [= <-]. unfold keys.
  change x with (fst (x, p)). apply in_map. eapply in_iter_items; eauto.
Qed.

Lemma getNodeByOffset_sound t k n :
  getNodeByOffset t k = n -> truthy n = true ->
  offsetOf n = Some k /\ In n (__iter__ t).
Proof.
  unfold getNodeByOffset.
  induction t as [|b h x p l IHl r IHr]; simpl.
  - intros <-. discriminate.
  - rewrite !iter_guard.
    destruct (Z.eqb_spec x k) as [->|Hne].
    + intros <- _. split; [reflexivity|]. apply in_or_app. simpl. auto.
    + destruct (truthy l && (k <? x)).
      * intros E T. destruct (IHl E T). split; auto. apply in_or_app. auto.
      * destruct (truthy r && (x <? k)).
        -- intros E T. destruct (IHr E T). split; auto.
           apply in_or_app. simpl. auto.
        -- intros <-. discriminate.
Qed.

Lemma iter_lookup t n k :
  bstOrder t -> In n (__iter__ t) -> offsetOf n = Some k ->
  getNodeByOffset t k = n.
Proof.
  unfold getNodeByOffset.
  induction t as [|b h x p l IHl r IHr]; [intros _ []|].
  intros Hbst Hin Hk. apply bstOrder_node in Hbst.
  destruct Hbst as (Bl & Br & Blt & Bgt).
  rewrite iter_node in Hin. apply in_app_or in Hin. simpl.
  destruct Hin as [Hin|[Hin|Hin]].
  - pose proof (in_iter_keys _ _ _ Hin Hk) as Hkl.
    specialize (Blt _ Hkl). rewrite (keys_truthy _ _ _ Hkl).
    zcases. simpl. auto.
  - subst n. simpl in Hk. inversion Hk; subst. now rewrite Z.eqb_refl.
  - pose proof (in_iter_keys _ _ _ Hin Hk) as Hkr.
    specialize (Bgt _ Hkr). rewrite (keys_truthy _ _ _ Hkr).
    zcases. rewrite andb_false_r. simpl. auto.
Qed.

Lemma payloadAt_lookup t k :
  bstOrder t -> payloadAt t k = lookupList k (items t).
Proof.
  intros Hbst. unfold payloadAt.
  destruct (in_dec Z.eq_dec k (keys t)) as [Hin|Hnin].
  - destruct (getNodeByOffset_present _ t k Hbst Hin)
      as (b & h & p & l & r & E & I).
    rewrite E. symmetry. now apply lookupList_in.
  - rewrite (getNodeByOffset_absent _ t k Hnin). symmetry.
    now apply lookupList_notin.
Qed.

(** ** Association-list facts used below *)

Lemma delList_keys_iff k (xs : list (Z * option P)) x :
  sortedKeys xs ->
  (In x (map fst (delList k xs)) <-> x <> k /\ In x (map fst xs)).
Proof.
  intros Hs. split.
  - intros H. split.
    + intros ->. now apply (delList_gone _ k xs Hs).
    + eapply delList_keys; eauto.
  - intros (Hne & Hin). apply in_map_iff in Hin.
    destruct Hin as ((y & q) & Hy & Hin). simpl in Hy. subst y.
    change x with (fst (x, q)). apply in_map. now apply delList_kept.
Qed.

Lemma delList_insList k (xs : list (Z * option P)) :
  ~ In k (map fst xs) -> delList k (insList k xs) = xs.
Proof.
  induction xs as [|[x p] xs IH]; simpl; intros H.
  - now rewrite Z.eqb_refl.
  - destruct (Z.ltb_spec k x); simpl.
    + now rewrite Z.eqb_refl.
    + destruct (Z.ltb_spec x k); simpl.
      * zcases. rewrite IH; auto.
      * exfalso. apply H. left. lia.
Qed.

Lemma insList_delList_keys k (xs : list (Z * option P)) :
  sortedKeys xs -> In k (map fst xs) ->
  map fst (insList k (delList k xs)) = map fst xs.
Proof.
  induction xs as [|[x p] xs IH]; simpl; [intros _ []|].
  intros Hs Hin. inversion Hs as [|? ? Hs' Hf]; subst.
  rewrite Forall_forall in Hf.
  destruct (Z.eqb_spec x k) as [->|Hne].
  - destruct xs as [|[y q] xs]; simpl; auto.
    assert (k < y) by (apply Hf; simpl; auto). zcases. reflexivity.
  - destruct Hin as [Hin|Hin]; [contradiction|].
    specialize (Hf _ Hin). simpl. zcases. simpl. now rewrite IH.
Qed.

Lemma insList_comm a b (xs : list (Z * option P)) :
  insList a (insList b xs) = insList b (insList a xs).
Proof.
  induction xs as [|[x p] xs IH]; simpl.
  - zcases; simpl; zcases; try reflexivity.
    assert (a = b) by lia. now subst.
  - destruct (Z.ltb_spec b x); destruct (Z.ltb_spec a x); simpl;
      zcases; simpl; zcases; try reflexivity.
    + assert (a = b) by lia. now subst.
    + now rewrite IH.
Qed.

Lemma items_sorted_insList t k :
  bstOrder t -> sortedKeys (insList k (items t)).
Proof. intros H. now apply insList_sorted. Qed.

(** ** The tree as a finite map *)

Lemma invariants_split t : invariants t -> avl t /\ bstOrder t.
Proof. apply invariants_avl. Qed.

Lemma invariants_join t : avl t -> bstOrder t -> invariants t.
Proof. intros A B. apply invariants_avl. auto. Qed.

(** X1. From any tree satisfying the invariants, whatever its payloads,
    [insertAtOffset] returns a tree satisfying them; its keys are those
    of the tree together with [k], and its height is the height of the
    tree or one more. *)
Theorem insert_keeps_invariants t k :
  invariants t ->
  exists t',
    insertAtOffset t k = Ok t'
    /\ invariants t'
    /\ (forall x, In x (keys t') <-> x = k \/ In x (keys t))
    /\ heightOf t <= heightOf t' <= heightOf t + 1.
Proof.
  intros H. apply invariants_split in H. destruct H as (A & B).
  destruct (insert_spec _ t k A B) as (t' & E & A' & I & Hh).
  exists t'. split; [exact E|].
  assert (B' : bstOrder t')
    by (unfold bstOrder, keys; rewrite I; now apply insList_sorted).
  split; [now apply invariants_join|]. split; [|exact Hh].
  intros x. unfold keys. rewrite I. apply insList_keys.
Qed.

(** X2. From any tree satisfying the invariants, [_remove] returns a tree
    satisfying them; the pairs met by the traversal are those met before
    without the pair at [k], in the same order (when the node has two
    children, the successor's payload stays with the successor's key);
    the height is the height of the tree or one less. *)
Theorem remove_keeps_invariants t k :
  invariants t ->
  exists t',
    _remove t k = Ok t'
    /\ invariants t'
    /\ items t' = delList k (items t)
    /\ (forall x, In x (keys t') <-> x <> k /\ In x (keys t))
    /\ heightOf t - 1 <= heightOf t' <= heightOf t.
Proof.
  intros H. apply invariants_split in H. destruct H as (A & B).
  destruct (remove_spec _ t k A B) as (t' & E & A' & I & Hh).
  exists t'. split; [exact E|].
  assert (B' : bstOrder t')
    by (unfold bstOrder, keys; rewrite I; now apply delList_sorted).
  split; [now apply invariants_join|]. split; [exact I|].
  split; [|exact Hh].
  intros x. unfold keys. rewrite I. now apply delList_keys_iff.
Qed.

(** X3. Lookup after insertion: on a tree satisfying the invariants, after
    [insertAtOffset(k)] the payload found at any other offset is the
    payload found before, and the payload found at [k] is the one found
    before if there was a node, and [None] in a new node otherwise. *)
Theorem lookup_after_insert t k :
  invariants t ->
  exists t',
    insertAtOffset t k = Ok t'
    /\ forall k',
        payloadAt t' k'
        = if k' =? k
          then match payloadAt t k with
               | Some p => Some p
               | None => Some None
               end
          else payloadAt t k'.
Proof.
  intros H. apply invariants_split in H. destruct H as (A & B).
  destruct (insert_spec _ t k A B) as (t' & E & A' & I & _).
  exists t'. split; [exact E|]. intros k'.
  assert (B' : bstOrder t')
    by (unfold bstOrder, keys; rewrite I; now apply insList_sorted).
  rewrite !payloadAt_lookup by assumption. rewrite I.
  destruct (Z.eqb_spec k' k) as [->|Hne].
  - now apply lookupList_insList_same.
  - now apply lookupList_insList_other.
Qed.

(** X4. Lookup after removal: on a tree satisfying the invariants, after
    [_remove] of [k] nothing is found at [k], and the payload found at any
    other offset is the payload found before. *)
Theorem lookup_after_remove t k :
  invariants t ->
  exists t',
    _remove t k = Ok t'
    /\ forall k',
        payloadAt t' k' = if k' =? k then None else payloadAt t k'.
Proof.
  intros H. apply invariants_split in H. destruct H as (A & B).
  destruct (remove_spec _ t k A B) as (t' & E & A' & I & _).
  exists t'. split; [exact E|]. intros k'.
  assert (B' : bstOrder t')
    by (unfold bstOrder, keys; rewrite I; now apply delList_sorted).
  rewrite !payloadAt_lookup by assumption. rewrite I.
  destruct (Z.eqb_spec k' k) as [->|Hne].
  - now apply lookupList_delList_same.
  - now apply lookupList_delList_other.
Qed.

(** X5. Any sequence of [insertAtOffset] and [_remove] calls on a tree
    satisfying the invariants returns, and the pairs met by the traversal
    afterwards are obtained by running the same sequence on the sorted
    association list of the pairs met before. *)
Theorem run_refines_list (ops : list op) : forall t,
  invariants t ->
  exists t',
    run ops t = Ok t'
    /\ invariants t'
    /\ items t' = runList ops (items t).
Proof.
  induction ops as [|o ops IH]; intros t H.
  - exists t. split; [reflexivity|]. split; [exact H | reflexivity].
  - assert (exists t1, applyOp t o = Ok t1 /\ invariants t1
                       /\ items t1 = applyOpList (items t) o)
      as (t1 & E & H1 & I1).
    { pose proof (invariants_split _ H) as (A & B). destruct o as [k|k]; simpl.
      - destruct (insert_spec _ t k A B) as (t1 & E & A1 & I & _).
        exists t1. split; [exact E|]. split; [|exact I].
        apply invariants_join; auto.
        unfold bstOrder, keys. rewrite I. now apply insList_sorted.
      - destruct (remove_spec _ t k A B) as (t1 & E & A1 & I & _).
        exists t1. split; [exact E|]. split; [|exact I].
        apply invariants_join; auto.
        unfold bstOrder, keys. rewrite I. now apply delList_sorted. }
    destruct (IH t1 H1) as (t' & E' & H' & I').
    exists t'. simpl. rewrite E. simpl.
    split; [exact E'|]. split; [exact H'|].
    unfold runList in *. simpl. now rewrite <- I1.
Qed.

(** X6. The lookup and the traversal agree: on a tree in search-tree
    order, [getNodeByOffset(k)] returns a node exactly when the traversal
    yields that node and its offset is [k]. *)
Theorem lookup_agrees_with_traversal t k n :
  bstOrder t -> truthy n = true ->
  (getNodeByOffset t k = n <-> In n (__iter__ t) /\ offsetOf n = Some k).
Proof.
  intros Hbst Hn. split.
  - intros E. destruct (getNodeByOffset_sound t k n E Hn). auto.
  - intros (Hin & Hk). now apply iter_lookup.
Qed.

(** X7. Inserting an absent key and removing it again gives back the
    pairs met by the traversal, payloads included; removing a present
    key and inserting it again gives back the keys. *)
Theorem insert_remove_round_trip t k :
  invariants t ->
  (~ In k (keys t) ->
   exists t1 t2,
     insertAtOffset t k = Ok t1 /\ _remove t1 k = Ok t2
     /\ items t2 = items t)
  /\ (In k (keys t) ->
      exists t1 t2,
        _remove t k = Ok t1 /\ insertAtOffset t1 k = Ok t2
        /\ keys t2 = keys t /\ payloadAt t2 k = Some None).
Proof.
  intros H. pose proof (invariants_split _ H) as (A & B). split; intros Hk.
  - destruct (insert_spec _ t k A B) as (t1 & E1 & A1 & I1 & _).
    assert (B1 : bstOrder t1)
      by (unfold bstOrder, keys; rewrite I1; now apply insList_sorted).
    destruct (remove_spec _ t1 k A1 B1) as (t2 & E2 & A2 & I2 & _).
    exists t1, t2. repeat split; auto.
    rewrite I2, I1. now apply delList_insList.
  - destruct (remove_spec _ t k A B) as (t1 & E1 & A1 & I1 & _).
    assert (B1 : bstOrder t1)
      by (unfold bstOrder, keys; rewrite I1; now apply delList_sorted).
    destruct (insert_spec _ t1 k A1 B1) as (t2 & E2 & A2 & I2 & _).
    assert (B2 : bstOrder t2)
      by (unfold bstOrder, keys; rewrite I2; now apply insList_sorted).
    exists t1, t2. repeat split; auto.
    + unfold keys. rewrite I2, I1. now apply insList_delList_keys.
    + rewrite payloadAt_lookup by assumption. rewrite I2, I1.
      rewrite lookupList_insList_same by (now apply delList_sorted).
      now rewrite lookupList_delList_same.
Qed.

(** X8. The order of two insertions does not matter for what the
    traversal yields: the offsets and payloads met are the same, though
    the shapes may differ. *)
Theorem insert_order_irrelevant t a b :
  invariants t ->
  exists ta tab tb tba,
    insertAtOffset t a = Ok ta /\ insertAtOffset ta b = Ok tab
    /\ insertAtOffset t b = Ok tb /\ insertAtOffset tb a = Ok tba
    /\ items tab = items tba.
Proof.
  intros H. pose proof (invariants_split _ H) as (A & B).
  destruct (insert_spec _ t a A B) as (ta & Ea & Aa & Ia & _).
  destruct (insert_spec _ t b A B) as (tb & Eb & Ab & Ib & _).
  assert (Ba : bstOrder ta)
    by (unfold bstOrder, keys; rewrite Ia; now apply insList_sorted).
  assert (Bb : bstOrder tb)
    by (unfold bstOrder, keys; rewrite Ib; now apply insList_sorted).
  destruct (insert_spec _ ta b Aa Ba) as (tab & Eab & _ & Iab & _).
  destruct (insert_spec _ tb a Ab Bb) as (tba & Eba & _ & Iba & _).
  exists ta, tab, tb, tba. repeat split; auto.
  rewrite Iab, Iba, Ia, Ib. apply insList_comm.
Qed.

(** ** Neighbours in the traversal *)

(** X9. On a tree in search-tree order, [getOffsetAfter] and
    [getOffsetBefore] step through the traversal: for two keys [a], [b]
    that the traversal yields one after the other, the offset after [a]
    is [b] and the offset before [b] is [a]. *)
Theorem neighbours_are_adjacent t a b xs ys :
  bstOrder t -> keys t = xs ++ a :: b :: ys ->
  getOffsetAfter t a = Some b /\ getOffsetBefore t b = Some a.
Proof.
  intros Hbst Hk.
  pose proof (getNodeAfter_spec _ t a Hbst) as Ha.
  pose proof (getNodeBefore_spec _ t b Hbst) as Hb.
  rewrite <- getOffsetAfter_eq in Ha. rewrite <- getOffsetBefore_eq in Hb.
  unfold bstOrder in Hbst. rewrite Hk in *.
  pose proof (proj1 (SSorted_mid xs (b :: ys) a) Hbst) as (_ & S2 & La & Ra).
  assert (Hab : a < b) by (apply Ra; simpl; auto).
  assert (Rb : forall y, In y ys -> b < y).
  { inversion S2 as [|? ? _ Hf]; subst. now rewrite Forall_forall in Hf. }
  assert (Ina : In a (xs ++ a :: b :: ys)) by (apply in_or_app; simpl; auto).
  assert (Inb : In b (xs ++ a :: b :: ys)) by (apply in_or_app; simpl; auto).
  split.
  - destruct (getOffsetAfter t a) as [m|]; simpl in Ha.
    + destruct Ha as (Hin & Ham & Hmin). f_equal.
      specialize (Hmin b Inb Hab).
      apply in_app_or in Hin. destruct Hin as [Hin|[Hin|[Hin|Hin]]].
      * specialize (La _ Hin). lia.
      * lia.
      * lia.
      * specialize (Rb _ Hin). lia.
    + specialize (Ha b Inb). lia.
  - destruct (getOffsetBefore t b) as [m|]; simpl in Hb.
    + destruct Hb as (Hin & Hmb & Hmax). f_equal.
      specialize (Hmax a Ina Hab).
      apply in_app_or in Hin. destruct Hin as [Hin|[Hin|[Hin|Hin]]].
      * specialize (La _ Hin). lia.
      * lia.
      * lia.
      * specialize (Rb _ Hin). lia.
    + specialize (Hb a Ina). lia.
Qed.

(** X10. At the ends of the traversal: nothing is before the first key and
    nothing after the last one; from any offset below the first key the
    offset after is the first key, and from any offset above the last key
    the offset before is the last key. *)
Theorem neighbours_at_the_ends t first last xs ys :
  bstOrder t -> keys t = first :: ys -> keys t = xs ++ [last] ->
  getOffsetBefore t first = None
  /\ getOffsetAfter t last = None
  /\ (forall k, k < first -> getOffsetAfter t k = Some first)
  /\ (forall k, last < k -> getOffsetBefore t k = Some last).
Proof.
  intros Hbst Hf Hl.
  assert (Hge : forall y, In y (keys t) -> first <= y).
  { unfold bstOrder in Hbst. rewrite Hf in *.
    inversion Hbst as [|? ? _ Hall]; subst. rewrite Forall_forall in Hall.
    intros y [->|Hy]; [lia|]. specialize (Hall _ Hy). lia. }
  assert (Hle : forall y, In y (keys t) -> y <= last).
  { unfold bstOrder in Hbst. rewrite Hl in *.
    pose proof (proj1 (SSorted_mid xs [] last) Hbst) as (_ & _ & La & _).
    intros y Hy. apply in_app_or in Hy. destruct Hy as [Hy|[->|[]]]; [|lia].
    specialize (La _ Hy). lia. }
  assert (Inf : In first (keys t)) by (rewrite Hf; simpl; auto).
  assert (Inl : In last (keys t)) by (rewrite Hl; apply in_or_app; simpl; auto).
  assert (Ha : forall k, isLeastAbove k (keys t) (getOffsetAfter t k)).
  { intros k. rewrite getOffsetAfter_eq. now apply getNodeAfter_spec. }
  assert (Hb : forall k, isGreatestBelow k (keys t) (getOffsetBefore t k)).
  { intros k. rewrite getOffsetBefore_eq. now apply getNodeBefore_spec. }
  repeat split.
  - specialize (Hb first). destruct (getOffsetBefore t first) as [m|]; auto.
    simpl in Hb. destruct Hb as (Hin & Hlt & _). specialize (Hge _ Hin). lia.
  - specialize (Ha last). destruct (getOffsetAfter t last) as [m|]; auto.
    simpl in Ha. destruct Ha as (Hin & Hlt & _). specialize (Hle _ Hin). lia.
  - intros k Hk. specialize (Ha k).
    destruct (getOffsetAfter t k) as [m|]; simpl in Ha.
    + destruct Ha as (Hin & _ & Hmin). f_equal.
      specialize (Hmin _ Inf Hk). specialize (Hge _ Hin). lia.
    + specialize (Ha _ Inf). lia.
  - intros k Hk. specialize (Hb k).
    destruct (getOffsetBefore t k) as [m|]; simpl in Hb.
    + destruct Hb as (Hin & _ & Hmax). f_equal.
      specialize (Hmax _ Inl Hk). specialize (Hle _ Hin). lia.
    + specialize (Hb _ Inl). lia.
Qed.

Lemma getNodeAfter_in_iter t k :
  truthy (_getNodeAfter_recurse t k) = true ->
  In (_getNodeAfter_recurse t k) (__iter__ t).
Proof.
  induction t as [|b h x p l IHl r IHr]; [discriminate|].
  rewrite iter_node. simpl.
  destruct ((x <=? k) && truthy r).
  - intros T. apply in_or_app. simpl. auto.
  - destruct (k <? x); [|discriminate]. unfold py_or.
    destruct (truthy (_getNodeAfter_recurse l k)) eqn:Tl.
    + intros _. apply in_or_app. auto.
    + intros _. apply in_or_app. simpl. auto.
Qed.

Lemma getNodeBefore_in_iter t k :
  truthy (_getNodeBefore_recurse t k) = true ->
  In (_getNodeBefore_recurse t k) (__iter__ t).
Proof.
  induction t as [|b h x p l IHl r IHr]; [discriminate|].
  rewrite iter_node. simpl.
  destruct (x <? k).
  - unfold py_or.
    destruct (truthy (_getNodeBefore_recurse r k)) eqn:Tr.
    + intros _. apply in_or_app. simpl. auto.
    + intros _. apply in_or_app. simpl. auto.
  - destruct ((k <=? x) && truthy l); [|discriminate].
    intros T. apply in_or_app. auto.
Qed.

Lemma getNodeAfter_lookup t k m :
  bstOrder t -> getOffsetAfter t k = Some m ->
  _getNodeAfter t k = getNodeByOffset t m.
Proof.
  intros Hbst E.
  rewrite getOffsetAfter_eq in E. unfold _getNodeAfter.
  pose proof (getNodeAfter_in_iter t k) as Hin.
  destruct (_getNodeAfter_recurse t k) as [|b h x p l r] eqn:En;
    [discriminate|].
  simpl in E. symmetry. apply iter_lookup; auto.
Qed.

Lemma getNodeBefore_lookup t k m :
  bstOrder t -> getOffsetBefore t k = Some m ->
  _getNodeBefore t k = getNodeByOffset t m.
Proof.
  intros Hbst E.
  rewrite getOffsetBefore_eq in E. unfold _getNodeBefore.
  pose proof (getNodeBefore_in_iter t k) as Hin.
  destruct (_getNodeBefore_recurse t k) as [|b h x p l r] eqn:En;
    [discriminate|].
  simpl in E. symmetry. apply iter_lookup; auto.
Qed.

(** X11. The node found by [_getNodeAfter] or [_getNodeBefore] is a node of
    the tree: on a tree in search-tree order it is the node that
    [getNodeByOffset] finds at the offset returned by [getOffsetAfter] or
    [getOffsetBefore]. *)
Theorem neighbour_node_is_lookup t k m :
  bstOrder t ->
  (getOffsetAfter t k = Some m -> _getNodeAfter t k = getNodeByOffset t m)
  /\ (getOffsetBefore t k = Some m ->
      _getNodeBefore t k = getNodeByOffset t m).
Proof.
  intros Hbst. split; intros E.
  - now apply getNodeAfter_lookup.
  - now apply getNodeBefore_lookup.
Qed.

Lemma getOffsetAfter_between t k1 k2 m :
  bstOrder t -> getOffsetAfter t k1 = Some m -> k1 <= k2 -> k2 < m ->
  getOffsetAfter t k2 = Some m.
Proof.
  intros Hbst E H1 H2.
  pose proof (getNodeAfter_spec _ t k1 Hbst) as Ha1.
  pose proof (getNodeAfter_spec _ t k2 Hbst) as Ha2.
  rewrite <- getOffsetAfter_eq in Ha1, Ha2. rewrite E in Ha1. simpl in Ha1.
  destruct Ha1 as (Hin & _ & Hmin).
  destruct (getOffsetAfter t k2) as [m2|]; simpl in Ha2.
  - destruct Ha2 as (Hin2 & Hlt2 & Hmin2). f_equal.
    specialize (Hmin2 _ Hin H2). specialize (Hmin _ Hin2). lia.
  - specialize (Ha2 _ Hin). lia.
Qed.

Lemma getOffsetBefore_between t k1 k2 m :
  bstOrder t -> getOffsetBefore t k1 = Some m -> k2 <= k1 -> m < k2 ->
  getOffsetBefore t k2 = Some m.
Proof.
  intros Hbst E H1 H2.
  pose proof (getNodeBefore_spec _ t k1 Hbst) as Hb1.
  pose proof (getNodeBefore_spec _ t k2 Hbst) as Hb2.
  rewrite <- getOffsetBefore_eq in Hb1, Hb2. rewrite E in Hb1. simpl in Hb1.
  destruct Hb1 as (Hin & _ & Hmax).
  destruct (getOffsetBefore t k2) as [m2|]; simpl in Hb2.
  - destruct Hb2 as (Hin2 & Hlt2 & Hmax2). f_equal.
    specialize (Hmax2 _ Hin H2). specialize (Hmax _ Hin2). lia.
  - specialize (Hb2 _ Hin). lia.
Qed.

(** X12. Queries that no key separates get the same node: on a tree in
    search-tree order, if the offset after [k1] is [m], then for every
    [k2] from [k1] up to but excluding [m], [_getNodeAfter(k2)] is the
    node [_getNodeAfter(k1)]; and likewise downwards for
    [_getNodeBefore]. *)
Theorem neighbour_is_stable_between_keys t k1 k2 m :
  bstOrder t ->
  (getOffsetAfter t k1 = Some m -> k1 <= k2 -> k2 < m ->
   getOffsetAfter t k2 = Some m /\ _getNodeAfter t k2 = _getNodeAfter t k1)
  /\ (getOffsetBefore t k1 = Some m -> k2 <= k1 -> m < k2 ->
      getOffsetBefore t k2 = Some m
      /\ _getNodeBefore t k2 = _getNodeBefore t k1).
Proof.
  intros Hbst. split; intros E H1 H2.
  - pose proof (getOffsetAfter_between t k1 k2 m Hbst E H1 H2) as E2.
    split; [exact E2|].
    rewrite (getNodeAfter_lookup t k1 m Hbst E).
    now apply getNodeAfter_lookup.
  - pose proof (getOffsetBefore_between t k1 k2 m Hbst E H1 H2) as E2.
    split; [exact E2|].
    rewrite (getNodeBefore_lookup t k1 m Hbst E).
    now apply getNodeBefore_lookup.
Qed.

(** ** Heights *)


Lemma size_node b h k p l r :
  size (AVLNode b h k p l r) = size l + 1 + size r.
Proof.
  unfold size. rewrite iter_node, length_app. simpl List.length. lia.
Qed.

Lemma size_nonneg t : 0 <= size t.
Proof. unfold size. lia. Qed.

Lemma half_height_bound t : avl t -> 2 ^ ((heightOf t + 2) / 2) <= size t + 1.
Proof.
  induction t as [|b h x p l IHl r IHr]; intros A.
  - reflexivity.
  - simpl in A. destruct A as (Al & Ar & Hh & Hb & Hrange).
    specialize (IHl Al). specialize (IHr Ar).
    pose proof (avl_height _ _ Al). pose proof (avl_height _ _ Ar).
    rewrite size_node. simpl heightOf.
    assert (Hh0 : 0 <= h) by lia.
    replace (h + 2) with (h + 1 * 2) by lia.
    rewrite Z.div_add by lia.
    assert (0 <= h / 2) by (apply Z.div_pos; lia).
    rewrite Z.pow_add_r by lia. change (2 ^ 1) with 2.
    assert (2 ^ (h / 2) <= 2 ^ ((heightOf l + 2) / 2)).
    { apply Z.pow_le_mono_r; [lia|]. apply Z.div_le_mono; lia. }
    assert (2 ^ (h / 2) <= 2 ^ ((heightOf r + 2) / 2)).
    { apply Z.pow_le_mono_r; [lia|]. apply Z.div_le_mono; lia. }
    lia.
Qed.

(** X14. A tree satisfying the invariants has height logarithmic in its
    number of nodes: with [n] nodes and root height [h],
    [2 ^ ((h + 2) / 2) <= n + 1]. *)
Theorem height_is_logarithmic t :
  invariants t -> 2 ^ ((heightOf t + 2) / 2) <= size t + 1.
Proof.
  intros H. apply invariants_split in H. destruct H as (A & _).
  now apply half_height_bound.
Qed.

(** ** Rotations and rebalancing on arbitrary nodes *)

Lemma rotateLeftLeft_cached node t :
  cached node -> _rotateLeftLeft node = Ok t -> cached t.
Proof.
  destruct node as [|b h k p [|lb lh lk lp ll lr] r]; try discriminate.
  simpl. intros ((Hll & Hlr & _) & Hr & _) [= <-].
  apply update_cached; auto. apply update_cached; auto.
Qed.

Lemma rotateRightRight_cached node t :
  cached node -> _rotateRightRight node = Ok t -> cached t.
Proof.
  destruct node as [|b h k p l [|rb rh rk rp rl rr]]; try discriminate.
  simpl. intros (Hl & (Hrl & Hrr & _) & _) [= <-].
  apply update_cached; auto. apply update_cached; auto.
Qed.

Lemma rotateLeftRight_cached node t :
  cached node -> _rotateLeftRight node = Ok t -> cached t.
Proof.
  destruct node as [|b h k p l r]; try discriminate.
  unfold _rotateLeftRight. intros Hc H. apply bind_inv in H.
  destruct H as (l1 & E1 & E2). simpl in Hc. destruct Hc as (Hl & Hr & _).
  apply (rotateLeftLeft_cached _ _ (update_cached _ b h k p l1 r
           (rotateRightRight_cached _ _ Hl E1) Hr) E2).
Qed.

Lemma rotateRightLeft_cached node t :
  cached node -> _rotateRightLeft node = Ok t -> cached t.
Proof.
  destruct node as [|b h k p l r]; try discriminate.
  unfold _rotateRightLeft. intros Hc H. apply bind_inv in H.
  destruct H as (r1 & E1 & E2). simpl in Hc. destruct Hc as (Hl & Hr & _).
  apply (rotateRightRight_cached _ _ (update_cached _ b h k p l r1
           Hl (rotateLeftLeft_cached _ _ Hr E1)) E2).
Qed.

(** X15. Each of the four rotations, when it returns, returns a tree whose
    traversal meets the same offsets and payloads in the same order, and
    whose cached fields are fresh if those of the argument were. *)
Theorem rotations_keep_traversal node t :
  _rotateLeftLeft node = Ok t \/ _rotateRightRight node = Ok t
  \/ _rotateLeftRight node = Ok t \/ _rotateRightLeft node = Ok t ->
  items t = items node /\ (cached node -> cached t).
Proof.
  intros [H|[H|[H|H]]]; split.
  - now apply rotateLeftLeft_items.
  - intros Hc. eapply rotateLeftLeft_cached; eauto.
  - now apply rotateRightRight_items.
  - intros Hc. eapply rotateRightRight_cached; eauto.
  - now apply rotateLeftRight_items.
  - intros Hc. eapply rotateLeftRight_cached; eauto.
  - now apply rotateRightLeft_items.
  - intros Hc. eapply rotateRightLeft_cached; eauto.
Qed.

(** X16. The two single rotations undo each other: on a node whose own
    cached fields and those of the child to be promoted are fresh,
    [_rotateLeftLeft] followed by [_rotateRightRight] gives the node
    back, field for field, and so does [_rotateRightRight] followed by
    [_rotateLeftLeft]. *)
Theorem single_rotations_are_inverse b h k p l r :
  let node := AVLNode b h k p l r in
  freshRoot node ->
  (truthy l = true -> freshRoot l ->
   exists t, _rotateLeftLeft node = Ok t /\ _rotateRightRight t = Ok node)
  /\ (truthy r = true -> freshRoot r ->
      exists t, _rotateRightRight node = Ok t /\ _rotateLeftLeft t = Ok node).
Proof.
  intros node. subst node. simpl. intros (Hh & Hb). split.
  - destruct l as [|lb lh lk lp ll lr]; [discriminate|]. intros _ (Hlh & Hlb).
    eexists. split; [reflexivity|].
    rewrite !update_eq. simpl. rewrite !update_eq. simpl in *.
    subst. reflexivity.
  - destruct r as [|rb rh rk rp rl rr]; [discriminate|]. intros _ (Hrh & Hrb).
    eexists. split; [reflexivity|].
    rewrite !update_eq. simpl. rewrite !update_eq. simpl in *.
    subst. reflexivity.
Qed.

(** X17. Whatever node [_rebalance] is given, when it returns it returns
    [None] for [None] and otherwise a node whose balance field is -1, 0
    or 1; the traversal meets the same offsets and payloads in the same
    order; and rebalancing the result again changes nothing. *)
Theorem rebalance_result node t :
  _rebalance node = Ok t ->
  items t = items node
  /\ truthy t = truthy node
  /\ (forall b, balanceOf t = Some b -> -1 <= b <= 1)
  /\ _rebalance t = Ok t.
Proof.
  intros E. split; [now apply rebalance_items|].
  destruct node as [|b h k p l r]; unfold _rebalance in E.
  - inversion E; subst. repeat split; auto; discriminate.
  - apply bind_inv in E. destruct E as (n1 & _ & E2).
    destruct n1 as [|b1 h1 k1 p1 l1 r1]; [discriminate|]. simpl in E2.
    destruct (Z.ltb_spec b1 (-1)); [discriminate|].
    destruct (Z.ltb_spec 1 b1); [discriminate|].
    simpl in E2. inversion E2; subst. simpl.
    split; [reflexivity|]. split.
    + intros b' [= <-]. lia.
    + unfold _rebalance. zcases. simpl. zcases. reflexivity.
Qed.

(** X18. With fresh cached fields on entry, whatever the order of the
    keys and the balance of the tree, [insertAtOffset] and [_remove]
    leave the cached fields fresh whenever they return. *)
Theorem cached_fields_stay_fresh t k :
  cached t ->
  (forall t', insertAtOffset t k = Ok t' -> cached t')
  /\ (forall t', _remove t k = Ok t' -> cached t').
Proof.
  intros Hc. split; intros t' E.
  - pose proof (insert_cached _ t k Hc) as H. now rewrite E in H.
  - pose proof (remove_cached _ t k Hc) as H. now rewrite E in H.
Qed.

(** ** The dump *)

#[local] Arguments AVLNode.__repr__ : simpl never.
#[local] Arguments AVLNode._getDebugPieces : simpl never.

Lemma dump_shift (d : nat) role node :
  map (fun x => (tab ++ x)%string) (dump d role node) = dump (S d) role node.
Proof.
  revert d role. induction node as [|b h k p l IHl r IHr]; intros d role.
  - reflexivity.
  - simpl. rewrite map_app, IHl, IHr. reflexivity.
Qed.

Lemma reprOf_node b h k p l r :
  AVLNode.__repr__ (AVLNode b h k p l r) = Ok (reprOf (AVLNode b h k p l r)).
Proof. reflexivity. Qed.

Lemma getDebugPieces_dump node :
  truthy node = true ->
  AVLNode._getDebugPieces node = Ok (dump 0 EmptyString node).
Proof.
  induction node as [|b h k p l IHl r IHr]; [discriminate|]. intros _.
  change (AVLNode._getDebugPieces (AVLNode b h k p l r)) with
    (r0 <- AVLNode.__repr__ (AVLNode b h k p l r) ;;
     result1 <-
       (if truthy l then
          subresult <- AVLNode._getDebugPieces l ;;
          match subresult with
          | [] => Raise IndexError
          | s0 :: rest =>
              Ok ([r0] ++ [(tab ++ "L: " ++ s0)%string]
                    ++ map (fun x => (tab ++ x)%string) rest)
          end
        else Ok [r0]) ;;
     if truthy r then
       subresult <- AVLNode._getDebugPieces r ;;
       match subresult with
       | [] => Raise IndexError
       | s0 :: rest =>
           Ok (result1 ++ [(tab ++ "R: " ++ s0)%string]
                 ++ map (fun x => (tab ++ x)%string) rest)
       end
     else Ok result1).
  rewrite reprOf_node. simpl bind.
  destruct l as [|lb lh lk lp ll lr]; destruct r as [|rb rh rk rp rl rr];
    simpl truthy; cbv iota;
    rewrite ?(IHl eq_refl), ?(IHr eq_refl); simpl;
    rewrite ?map_app, ?dump_shift, ?app_nil_r; simpl;
    rewrite <- ?app_assoc; reflexivity.
Qed.

Lemma dump_length (d : nat) role node :
  List.length (dump d role node) = List.length (__iter__ node).
Proof.
  revert d role. induction node as [|b h k p l IHl r IHr]; intros d role.
  - reflexivity.
  - rewrite iter_node. simpl. rewrite !length_app, IHl, IHr. simpl. lia.
Qed.

(** X19. [AVLTree.debug()] returns, for every tree, the lines of the
    direct dump joined by newlines: one line per node of the traversal,
    the root first, then the left subtree, then the right subtree, each
    line made of as many tabs as the node is deep, [L: ] or [R: ] for a
    child, and the [repr] of the node. *)
Theorem debug_is_dump t :
  AVLTree.debug t = Ok (String.concat newline (dump 0 EmptyString t))
  /\ List.length (dump 0 EmptyString t) = List.length (__iter__ t).
Proof.
  split; [|apply dump_length].
  destruct t as [|b h k p l r]; [reflexivity|].
  unfold AVLTree.debug, AVLNode.debug.
  now rewrite (getDebugPieces_dump (AVLNode b h k p l r) eq_refl).
Qed.

(** ** Searches on arbitrary trees, and trees built from a list *)

Lemma getNodeAfter_above t k m :
  offsetOf (_getNodeAfter_recurse t k) = Some m -> k < m /\ In m (keys t).
Proof.
  induction t as [|b h x p l IHl r IHr]; [discriminate|].
  rewrite keys_node. simpl.
  destruct ((x <=? k) && truthy r).
  - intros E. destruct (IHr E). split; auto. apply in_or_app. simpl. auto.
  - destruct (Z.ltb_spec k x); [|discriminate]. unfold py_or.
    destruct (_getNodeAfter_recurse l k) as [|b' h' x' p' l' r']; simpl.
    + intros [= <-]. split; auto. apply in_or_app. simpl. auto.
    + intros [= <-]. destruct (IHl eq_refl). split; auto.
      apply in_or_app. auto.
Qed.

Lemma getNodeBefore_below t k m :
  offsetOf (_getNodeBefore_recurse t k) = Some m -> m < k /\ In m (keys t).
Proof.
  induction t as [|b h x p l IHl r IHr]; [discriminate|].
  rewrite keys_node. simpl.
  destruct (Z.ltb_spec x k).
  - unfold py_or.
    destruct (_getNodeBefore_recurse r k) as [|b' h' x' p' l' r']; simpl.
    + intros [= <-]. split; auto. apply in_or_app. simpl. auto.
    + intros [= <-]. destruct (IHr eq_refl). split; auto.
      apply in_or_app. simpl. auto.
  - destruct ((k <=? x) && truthy l); [|discriminate].
    intros E. destruct (IHl E). split; auto. apply in_or_app. auto.
Qed.

(** X20. Whatever the tree, in order or not, the searches never return a
    wrong node: a node returned by [getNodeByOffset(k)] is a node of the
    traversal with offset [k]; an offset returned by [getOffsetAfter(k)]
    is a key of the tree strictly above [k], and one returned by
    [getOffsetBefore(k)] a key strictly below [k]. *)
Theorem searches_are_sound t k :
  (forall n, getNodeByOffset t k = n -> truthy n = true ->
             offsetOf n = Some k /\ In n (__iter__ t))
  /\ (forall m, getOffsetAfter t k = Some m -> k < m /\ In m (keys t))
  /\ (forall m, getOffsetBefore t k = Some m -> m < k /\ In m (keys t)).
Proof.
  split; [|split].
  - intros n. apply getNodeByOffset_sound.
  - intros m. rewrite getOffsetAfter_eq. apply getNodeAfter_above.
  - intros m. rewrite getOffsetBefore_eq. apply getNodeBefore_below.
Qed.

Lemma insert_all t (ks : list Z) :
  avl t /\ bstOrder t ->
  exists t',
    run (map OpInsert ks) t = Ok t'
    /\ (avl t' /\ bstOrder t')
    /\ forall x, In x (keys t') <-> In x ks \/ In x (keys t).
Proof.
  revert t. induction ks as [|k ks IH]; intros t (A & B).
  - exists t. simpl. repeat split; auto. intros [[]|H]; auto.
  - destruct (insert_spec _ t k A B) as (t1 & E1 & A1 & I1 & _).
    assert (B1 : bstOrder t1)
      by (unfold bstOrder, keys; rewrite I1; now apply insList_sorted).
    destruct (IH t1 (conj A1 B1)) as (t' & E' & H' & K').
    exists t'. simpl. rewrite E1. simpl. split; [exact E'|].
    split; [exact H'|]. intros x. rewrite K'.
    assert (Hk1 : In x (keys t1) <-> x = k \/ In x (keys t))
      by (unfold keys; rewrite I1; apply insList_keys).
    rewrite Hk1. simpl. intuition congruence.
Qed.

(** X21. Inserting the offsets of any list, in the order of the list and
    with any repetitions, into an empty tree always returns, and the
    traversal of the result yields exactly the offsets of the list, each
    once, in increasing order. *)
Theorem tree_of_list_is_sorted_set (ks : list Z) :
  exists t : noderef P,
    run (map OpInsert ks) AVLTree.__init__ = Ok t
    /\ StronglySorted Z.lt (keys t)
    /\ forall x, In x (keys t) <-> In x ks.
Proof.
  destruct (insert_all PyNone ks (empty_invariant P)) as (t & E & (_ & B) & K).
  exists t. split; [exact E|]. split; [exact B|].
  intros x. rewrite K. simpl. tauto.
Qed.

End Further.

(** * The further properties at concrete trees *)

Lemma insert_keeps_invariants_witness :
  invariants paidTree
  /\ exists t',
      insertAtOffset paidTree 7 = Ok t'
      /\ invariants t'
      /\ (forall x, In x (keys t') <-> x = 7 \/ In x (keys paidTree))
      /\ heightOf paidTree <= heightOf t' <= heightOf paidTree + 1.
Proof.
  assert (H : invariants paidTree) by tree_invariants.
  split; [exact H|]. exact (insert_keeps_invariants string paidTree 7 H).
Defined.

Lemma remove_keeps_invariants_witness :
  invariants paidTree
  /\ exists t',
      _remove paidTree 10 = Ok t'
      /\ invariants t'
      /\ items t' = delList 10 (items paidTree)
      /\ (forall x, In x (keys t') <-> x <> 10 /\ In x (keys paidTree))
      /\ heightOf paidTree - 1 <= heightOf t' <= heightOf paidTree.
Proof.
  assert (H : invariants paidTree) by tree_invariants.
  split; [exact H|]. exact (remove_keeps_invariants string paidTree 10 H).
Defined.

Lemma lookup_after_insert_witness :
  invariants paidTree
  /\ exists t',
      insertAtOffset paidTree 7 = Ok t'
      /\ forall k',
          payloadAt t' k'
          = if k' =? 7
            then match payloadAt paidTree 7 with
                 | Some p => Some p
                 | None => Some None
                 end
            else payloadAt paidTree k'.
Proof.
  assert (H : invariants paidTree) by tree_invariants.
  split; [exact H|]. exact (lookup_after_insert string paidTree 7 H).
Defined.

Lemma lookup_after_remove_witness :
  invariants paidTree
  /\ exists t',
      _remove paidTree 10 = Ok t'
      /\ forall k',
          payloadAt t' k' = if k' =? 10 then None else payloadAt paidTree k'.
Proof.
  assert (H : invariants paidTree) by tree_invariants.
  split; [exact H|]. exact (lookup_after_remove string paidTree 10 H).
Defined.

Lemma run_refines_list_witness :
  invariants paidTree
  /\ exists t',
      run [OpRemove 10; OpInsert 7; OpRemove 30] paidTree = Ok t'
      /\ invariants t'
      /\ items t'
         = runList [OpRemove 10; OpInsert 7; OpRemove 30] (items paidTree).
Proof.
  assert (H : invariants paidTree) by tree_invariants.
  split; [exact H|].
  exact (run_refines_list string [OpRemove 10; OpInsert 7; OpRemove 30]
           paidTree H).
Defined.

Lemma lookup_agrees_with_traversal_witness :
  bstOrder paidTree
  /\ (getNodeByOffset paidTree 30 = leaf 30 (Some "thirty"%string)
      <-> In (leaf 30 (Some "thirty"%string)) (__iter__ paidTree)
          /\ offsetOf (leaf 30 (Some "thirty"%string)) = Some 30).
Proof.
  assert (H : bstOrder paidTree) by (unfold bstOrder; simpl; by_computation).
  split; [exact H|].
  exact (lookup_agrees_with_traversal string paidTree 30
           (leaf 30 (Some "thirty"%string)) H eq_refl).
Defined.

Lemma insert_remove_round_trip_witness :
  invariants paidTree /\ ~ In 7 (keys paidTree) /\ In 10 (keys paidTree)
  /\ (exists t1 t2,
         insertAtOffset paidTree 7 = Ok t1 /\ _remove t1 7 = Ok t2
         /\ items t2 = items paidTree)
  /\ (exists t1 t2,
         _remove paidTree 10 = Ok t1 /\ insertAtOffset t1 10 = Ok t2
         /\ keys t2 = keys paidTree /\ payloadAt t2 10 = Some None).
Proof.
  assert (H : invariants paidTree) by tree_invariants.
  assert (Hnin : ~ In 7 (keys paidTree)) by (simpl; lia).
  assert (Hin : In 10 (keys paidTree)) by (simpl; tauto).
  split; [exact H|]. split; [exact Hnin|]. split; [exact Hin|].
  split.
  - exact (proj1 (insert_remove_round_trip string paidTree 7 H) Hnin).
  - exact (proj2 (insert_remove_round_trip string paidTree 10 H) Hin).
Defined.

Lemma insert_order_irrelevant_witness :
  invariants paidTree
  /\ exists ta tab tb tba,
      insertAtOffset paidTree 7 = Ok ta /\ insertAtOffset ta 8 = Ok tab
      /\ insertAtOffset paidTree 8 = Ok tb /\ insertAtOffset tb 7 = Ok tba
      /\ items tab = items tba.
Proof.
  assert (H : invariants paidTree) by tree_invariants.
  split; [exact H|]. exact (insert_order_irrelevant string paidTree 7 8 H).
Defined.

Lemma neighbours_are_adjacent_witness :
  bstOrder paidTree /\ keys paidTree = [5] ++ 10 :: 20 :: [30]
  /\ getOffsetAfter paidTree 10 = Some 20
  /\ getOffsetBefore paidTree 20 = Some 10.
Proof.
  assert (H : bstOrder paidTree) by (unfold bstOrder; simpl; by_computation).
  assert (Hk : keys paidTree = [5] ++ 10 :: 20 :: [30]) by reflexivity.
  split; [exact H|]. split; [exact Hk|].
  exact (neighbours_are_adjacent string paidTree 10 20 [5] [30] H Hk).
Defined.

Lemma neighbours_at_the_ends_witness :
  bstOrder paidTree
  /\ getOffsetBefore paidTree 5 = None
  /\ getOffsetAfter paidTree 30 = None
  /\ (forall k, k < 5 -> getOffsetAfter paidTree k = Some 5)
  /\ (forall k, 30 < k -> getOffsetBefore paidTree k = Some 30).
Proof.
  assert (H : bstOrder paidTree) by (unfold bstOrder; simpl; by_computation).
  split; [exact H|].
  exact (neighbours_at_the_ends string paidTree 5 30 [5; 10; 20] [10; 20; 30]
           H eq_refl eq_refl).
Defined.

Lemma neighbour_node_is_lookup_witness :
  bstOrder paidTree /\ getOffsetAfter paidTree 10 = Some 20
  /\ _getNodeAfter paidTree 10 = getNodeByOffset paidTree 20.
Proof.
  assert (H : bstOrder paidTree) by (unfold bstOrder; simpl; by_computation).
  assert (E : getOffsetAfter paidTree 10 = Some 20) by reflexivity.
  split; [exact H|]. split; [exact E|].
  exact (proj1 (neighbour_node_is_lookup string paidTree 10 20 H) E).
Defined.

Lemma neighbour_is_stable_between_keys_witness :
  bstOrder paidTree /\ getOffsetAfter paidTree 11 = Some 20
  /\ 11 <= 15 /\ 15 < 20
  /\ getOffsetAfter paidTree 15 = Some 20
  /\ _getNodeAfter paidTree 15 = _getNodeAfter paidTree 11.
Proof.
  assert (H : bstOrder paidTree) by (unfold bstOrder; simpl; by_computation).
  assert (E : getOffsetAfter paidTree 11 = Some 20) by reflexivity.
  assert (H1 : 11 <= 15) by lia.
  assert (H2 : 15 < 20) by lia.
  split; [exact H|]. split; [exact E|]. split; [exact H1|].
  split; [exact H2|].
  exact (proj1 (neighbour_is_stable_between_keys string paidTree 11 15 20 H)
           E H1 H2).
Defined.


Lemma height_is_logarithmic_witness :
  invariants paidTree
  /\ 2 ^ ((heightOf paidTree + 2) / 2) <= size paidTree + 1.
Proof.
  assert (H : invariants paidTree) by tree_invariants.
  split; [exact H|]. exact (height_is_logarithmic string paidTree H).
Defined.

Lemma rotations_keep_traversal_witness :
  _rotateLeftLeft (@docUnbalanced string) = Ok docAfter3
  /\ items (@docAfter3 string) = items (@docUnbalanced string)
  /\ (cached (@docUnbalanced string) -> cached (@docAfter3 string)).
Proof.
  assert (E : _rotateLeftLeft (@docUnbalanced string) = Ok docAfter3)
    by reflexivity.
  split; [exact E|].
  exact (rotations_keep_traversal string docUnbalanced docAfter3
           (or_introl E)).
Defined.

Lemma single_rotations_are_inverse_witness :
  freshRoot paidTree
  /\ exists t, _rotateRightRight paidTree = Ok t /\ _rotateLeftLeft t = Ok paidTree.
Proof.
  assert (H : freshRoot paidTree) by (simpl; by_computation).
  assert (Hr : freshRoot (AVLNode 1 1 20 (@None string) PyNone
                            (leaf 30 (Some "thirty"%string))))
    by (simpl; by_computation).
  split; [exact H|].
  exact (proj2 (single_rotations_are_inverse string 1 2 10
                  (Some "ten"%string) (leaf 5 (Some "five"%string))
                  (AVLNode 1 1 20 None PyNone (leaf 30 (Some "thirty"%string)))
                  H) eq_refl Hr).
Defined.

Lemma rebalance_result_witness :
  _rebalance (@docUnbalanced string) = Ok docAfter3
  /\ items (@docAfter3 string) = items (@docUnbalanced string)
  /\ truthy (@docAfter3 string) = truthy (@docUnbalanced string)
  /\ (forall b, balanceOf (@docAfter3 string) = Some b -> -1 <= b <= 1)
  /\ _rebalance (@docAfter3 string) = Ok docAfter3.
Proof.
  assert (E : _rebalance (@docUnbalanced string) = Ok docAfter3)
    by reflexivity.
  split; [exact E|].
  exact (rebalance_result string docUnbalanced docAfter3 E).
Defined.

Lemma cached_fields_stay_fresh_witness :
  cached leftChain
  /\ exists t', _remove leftChain 7 = Ok t' /\ cached t'.
Proof.
  assert (H : cached leftChain) by (simpl; by_computation).
  split; [exact H|].
  eexists. split; [reflexivity|].
  exact (proj2 (cached_fields_stay_fresh string leftChain 7 H) _ eq_refl).
Defined.

Lemma searches_are_sound_witness :
  getOffsetAfter leftChain 25 = Some 30
  /\ 25 < 30 /\ In 30 (keys leftChain).
Proof.
  assert (E : getOffsetAfter leftChain 25 = Some 30) by reflexivity.
  split; [exact E|].
  exact (proj1 (proj2 (searches_are_sound string leftChain 25)) 30 E).
Defined.
